(** * node-app-db: the request handler, start-up checks and shutdown of app.js

    A shallow embedding of [app.js] and of the [index.ejs] template.  The
    script is written in continuation-passing style, as the JavaScript is:
    [db.query] takes a callback, [await getSignedUrl] suspends the async
    callback, [process.exit] never returns.  Two semantics are given to the
    same program text: [exec] runs one task to completion against a world
    that answers the database and the presigner, and [Loop] is the event
    loop of the running process, with the driver's connection pool. *)

From Stdlib Require Import String Ascii List ZArith Lia Bool DecimalString.
From stdpp Require Import gmap strings list.
Import ListNotations.
Open Scope string_scope.

(** ** JavaScript values the script handles *)

(** [process.env] is an object from names to strings; reading an absent
    name gives [undefined], here [None]. *)
Definition truthy (v : option string) : bool :=
  match v with
  | Some (String _ _) => true
  | Some EmptyString => false
  | None => false
  end.

(** The prefix operator [!] on such a value. *)
Definition js_not (v : option string) : bool := negb (truthy v).

(** An [Error] object, as the driver and the AWS SDK hand them over. *)
Record JsError := { err_code : string; err_message : string }.

Inductive Signal :=
| SIGHUP | SIGINT | SIGQUIT | SIGKILL | SIGUSR1 | SIGUSR2
| SIGPIPE | SIGALRM | SIGTERM | SIGCHLD | SIGCONT | SIGWINCH.

Definition signum (s : Signal) : nat :=
  match s with
  | SIGHUP => 1 | SIGINT => 2 | SIGQUIT => 3 | SIGKILL => 9 | SIGUSR1 => 10
  | SIGUSR2 => 12 | SIGPIPE => 13 | SIGALRM => 14 | SIGTERM => 15
  | SIGCHLD => 17 | SIGCONT => 18 | SIGWINCH => 28
  end.

Definition Signal_eqb (a b : Signal) : bool := Nat.eqb (signum a) (signum b).

(** What the runtime does with a signal that has no handler.  SIGHUP,
    SIGINT, SIGQUIT, SIGKILL, SIGUSR2, SIGALRM and SIGTERM end the
    process, and its status is 128 + the number of the signal.  The
    others do not end it: the runtime ignores SIGPIPE, SIGCHLD, SIGCONT
    and SIGWINCH, and keeps SIGUSR1 for its debugger. *)
Definition default_action (s : Signal) : option nat :=
  match s with
  | SIGHUP | SIGINT | SIGQUIT | SIGKILL | SIGUSR2 | SIGALRM | SIGTERM =>
      Some (128 + signum s)
  | SIGUSR1 | SIGPIPE | SIGCHLD | SIGCONT | SIGWINCH => None
  end.

(** ** Data model *)

(** A row of [products]: [id INT AUTO_INCREMENT PRIMARY KEY],
    [name VARCHAR(255) NOT NULL], [description TEXT], [price DECIMAL(10, 2)].
    The two columns without [NOT NULL] can hold [NULL]; the driver hands a
    DECIMAL over as its decimal text. *)
Record Product := {
  id : Z;
  name : string;
  description : option string;
  price : option string
}.

Record PoolConfig := {
  host : option string;
  user : option string;
  password : option string;
  database : option string;
  connectionLimit : nat
}.

Record S3Config := {
  accessKeyId : option string;
  secretAccessKey : option string;
  region : option string
}.

Record GetObjectCommand := { Bucket : option string; Key : string }.

Record SignOptions := { expiresIn : nat }.

(** The second argument of [res.render]. *)
Record Locals := { products : list Product; bannerUrl : string }.

(** What the callback of [db.query] receives: [(err, results)]. *)
Definition QueryResult : Type := JsError + list Product.

(** What [await getSignedUrl(...)] gives: a rejection or the URL. *)
Definition SignResult : Type := JsError + string.

(** ** The program text *)

Inductive Action :=
| createPool (cfg : PoolConfig)
| new_S3Client (cfg : S3Config)
| console_error (msg : string) (detail : option JsError)
| console_log (msg : string)
| app_use (prefix dir : string)
| app_set (key value : string)
| res_status (code : nat)
| res_send (body : string)
| res_render (view : string) (locals : Locals).

(** A statement sequence.  Where the JavaScript passes a callback the
    constructor holds it next to the rest [k] of the calling code. *)
Inductive Prog :=
| Done
| Act (a : Action) (k : Prog)
| ProcessExit (code : nat)
| AppGet (path : string) (handler : Prog) (k : Prog)
| AppListen (port : nat) (cb : Prog) (k : Prog)
| ProcessOn (sig : Signal) (handler : Prog) (k : Prog)
| DbQuery (sql : string) (cb : QueryResult -> Prog) (k : Prog)
| DbEnd (cb : Prog) (k : Prog)
| GetSignedUrl (client : S3Config) (cmd : GetObjectCommand)
    (opts : SignOptions) (k : SignResult -> Prog).

(** [p ;; q]: the statements of [p], then those of [q].  Nothing follows a
    [process.exit]; what follows an [await] waits for its result. *)
Fixpoint seq (p q : Prog) : Prog :=
  match p with
  | Done => q
  | Act a k => Act a (seq k q)
  | ProcessExit code => ProcessExit code
  | AppGet path h k => AppGet path h (seq k q)
  | AppListen port cb k => AppListen port cb (seq k q)
  | ProcessOn sig h k => ProcessOn sig h (seq k q)
  | DbQuery sql cb k => DbQuery sql cb (seq k q)
  | DbEnd cb k => DbEnd cb (seq k q)
  | GetSignedUrl c cmd o k => GetSignedUrl c cmd o (fun r => seq (k r) q)
  end.

Declare Scope prog_scope.
Delimit Scope prog_scope with prog.
Bind Scope prog_scope with Prog.
Notation "p ;; q" := (seq p q) (at level 100, q at level 200, right associativity) : prog_scope.

Definition act (a : Action) : Prog := Act a Done.

(** [if (c) { p }] *)
Definition when (c : bool) (p : Prog) : Prog := if c then p else Done.

Definition port : nat := 3000.

(** The [try] block from the [await] on: the render on a URL, the [catch]
    on a rejection. *)
Definition on_signed_url (results : list Product) (s : SignResult) : Prog :=
  match s with
  | inr url =>
      act (res_render "index" {| products := results; bannerUrl := url |})
  | inl err =>
      (act (console_error "Error fetching static file from S3:" (Some err)) ;;
       act (res_status 500) ;;
       act (res_send "S3 error"))%prog
  end.

(** The callback of [db.query] in the route: the [err] branch with its
    [return], then the [try] block. *)
Definition on_query_result (env : gmap string string) (s3 : S3Config)
    (r : QueryResult) : Prog :=
  match r with
  | inl err =>
      (act (console_error "Error fetching data from database:" (Some err)) ;;
       act (res_status 500) ;;
       act (res_send "Database error") ;;
       Done)%prog
  | inr results =>
      let command :=
        {| Bucket := env !! "S3_BUCKET_NAME"; Key := "banner.jpg" |} in
      GetSignedUrl s3 command {| expiresIn := 3600 |} (on_signed_url results)
  end.

(** [app.get('/', (req, res) => { ... })] *)
Definition get_root (env : gmap string string) (s3 : S3Config) : Prog :=
  let query := "SELECT * FROM products" in
  DbQuery query (on_query_result env s3) Done.

(** [process.on('SIGINT', () => { ... })] *)
Definition on_pool_closed : Prog :=
  (act (console_log "MySQL connections closed") ;; ProcessExit 0)%prog.

Definition on_sigint : Prog :=
  (act (console_log "Shutting down server...") ;; DbEnd on_pool_closed Done)%prog.

Definition db_config (env : gmap string string) : PoolConfig :=
  {| host := env !! "DB_HOST";
     user := env !! "DB_USER";
     password := env !! "DB_PASSWORD";
     database := env !! "DB_NAME";
     connectionLimit := 10 |}.

Definition s3_config (env : gmap string string) : S3Config :=
  {| accessKeyId := env !! "AWS_ACCESS_KEY_ID";
     secretAccessKey := env !! "AWS_SECRET_ACCESS_KEY";
     region := env !! "AWS_REGION" |}.

(** The script, top to bottom; [env] is [process.env] once dotenv has
    loaded the .env file. *)
Definition main (env : gmap string string) : Prog :=
  (act (createPool (db_config env)) ;;
   when (js_not (env !! "DB_HOST") || js_not (env !! "DB_USER")
         || js_not (env !! "DB_PASSWORD") || js_not (env !! "DB_NAME"))
     (act (console_error
             "Missing required environment variables for database connection" None) ;;
      ProcessExit 1) ;;
   when (js_not (env !! "AWS_ACCESS_KEY_ID") || js_not (env !! "AWS_SECRET_ACCESS_KEY")
         || js_not (env !! "AWS_REGION") || js_not (env !! "S3_BUCKET_NAME"))
     (act (console_error "Missing required AWS environment variables" None) ;;
      ProcessExit 1) ;;
   act (new_S3Client (s3_config env)) ;;
   act (app_use "/static" "public") ;;
   act (app_set "view engine" "ejs") ;;
   AppGet "/" (get_root env (s3_config env)) Done ;;
   AppListen port
     (act (console_log ("App running at http://localhost:"
                        +:+ NilEmpty.string_of_uint (Nat.to_uint port)))) Done ;;
   ProcessOn SIGINT on_sigint Done)%prog.

(** ** Running one task against a world *)

(** The collaborators outside the process: what the database answers to a
    query and what the presigner answers to a signing request, each at the
    logical time of the call. *)
Record World := {
  mysql_query : nat -> string -> QueryResult;
  presigner : nat -> S3Config -> GetObjectCommand -> SignOptions -> SignResult
}.

Inductive Event :=
| Did (a : Action)
| Routed (path : string) (handler : Prog)
| Bound (port : nat)
| Hooked (sig : Signal) (handler : Prog)
| Queried (sql : string) (r : QueryResult)
| Presigned (client : S3Config) (cmd : GetObjectCommand) (opts : SignOptions)
    (r : SignResult)
| PoolEnd
| Exit (code : nat).

Definition is_exit (e : nat * Event) : bool :=
  match snd e with Exit _ => true | _ => false end.

(** A callback that the runtime calls on a later turn runs after the rest
    of the calling code, unless that code ended the process. *)
Definition later (tr : list (nat * Event)) (cb : list (nat * Event)) :
    list (nat * Event) :=
  if existsb is_exit tr then tr else tr ++ cb.

(** [exec w t p]: the events of [p] started at logical time [t], one tick
    an event, each stamped with its time. *)
Fixpoint exec (w : World) (t : nat) (p : Prog) : list (nat * Event) :=
  match p with
  | Done => []
  | Act a k => (t, Did a) :: exec w (S t) k
  | ProcessExit code => [(t, Exit code)]
  | AppGet path h k => (t, Routed path h) :: exec w (S t) k
  | AppListen n cb k =>
      let tr := exec w (S t) k in
      (t, Bound n) :: later tr (exec w (length tr + S t) cb)
  | ProcessOn sig h k => (t, Hooked sig h) :: exec w (S t) k
  | DbQuery sql cb k =>
      let r := mysql_query w t sql in
      let tr := exec w (S t) k in
      (t, Queried sql r) :: later tr (exec w (length tr + S t) (cb r))
  | DbEnd cb k =>
      let tr := exec w (S t) k in
      (t, PoolEnd) :: later tr (exec w (length tr + S t) cb)
  | GetSignedUrl c cmd o k =>
      let r := presigner w t c cmd o in
      (t, Presigned c cmd o r) :: exec w (S t) (k r)
  end.

(** *** What a trace shows *)

(** The status the process exited with, if it did. *)
Fixpoint exit_status (tr : list (nat * Event)) : option nat :=
  match tr with
  | [] => None
  | (_, Exit code) :: _ => Some code
  | _ :: tr' => exit_status tr'
  end.

(** The messages written with [console.error]. *)
Fixpoint stderr (tr : list (nat * Event)) : list string :=
  match tr with
  | [] => []
  | (_, Did (console_error msg _)) :: tr' => msg :: stderr tr'
  | _ :: tr' => stderr tr'
  end.

(** The errors handed to [console.error] as second argument. *)
Fixpoint logged_errors (tr : list (nat * Event)) : list JsError :=
  match tr with
  | [] => []
  | (_, Did (console_error _ (Some e))) :: tr' => e :: logged_errors tr'
  | _ :: tr' => logged_errors tr'
  end.

Definition is_bound (e : nat * Event) : bool :=
  match snd e with Bound _ => true | _ => false end.

Definition is_query (e : nat * Event) : bool :=
  match snd e with Queried _ _ => true | _ => false end.

Definition is_presign (e : nat * Event) : bool :=
  match snd e with Presigned _ _ _ _ => true | _ => false end.

Definition is_render (e : nat * Event) : bool :=
  match snd e with Did (res_render _ _) => true | _ => false end.

(** A query that came back without error. *)
Definition is_query_ok (e : nat * Event) : bool :=
  match snd e with Queried _ (inr _) => true | _ => false end.

(** An HTTP response: status line and body. *)
Record Response := { status : nat; body : string }.

(** The responses a trace writes to [res].  [res.statusCode] starts at 200,
    [res.status] sets it, [res.send] and [res.render] write the response
    with the code set so far; [render] is the view engine. *)
Fixpoint responses_from (render : string -> Locals -> string) (code : nat)
    (tr : list (nat * Event)) : list Response :=
  match tr with
  | [] => []
  | (_, Did (res_status c)) :: tr' => responses_from render c tr'
  | (_, Did (res_send b)) :: tr' =>
      {| status := code; body := b |} :: responses_from render code tr'
  | (_, Did (res_render v l)) :: tr' =>
      {| status := code; body := render v l |} :: responses_from render code tr'
  | _ :: tr' => responses_from render code tr'
  end.

(** ** The view: views/index.ejs *)

Definition nl : string := String "010" EmptyString.
Definition dq : string := String "034" EmptyString.

Fixpoint spaces (n : nat) : string :=
  match n with O => "" | S n' => String " " (spaces n') end.

(** One line of template text at the given indentation. *)
Definition ln (indent : nat) (s : string) : string := spaces indent +:+ s +:+ nl.

(** EJS's [escapeXML], the filter behind [<%= %>]: [undefined] and [null]
    print as nothing, anything else as its text with the five characters
    of markup encoded. *)
Definition encode_char (c : ascii) : string :=
  if Ascii.eqb c "&" then "&amp;"
  else if Ascii.eqb c "<" then "&lt;"
  else if Ascii.eqb c ">" then "&gt;"
  else if Ascii.eqb c "034" then "&#34;"
  else if Ascii.eqb c "'" then "&#39;"
  else String c EmptyString.

Fixpoint encode (s : string) : string :=
  match s with
  | EmptyString => EmptyString
  | String c s' => encode_char c +:+ encode s'
  end.

Definition escapeXML (markup : option string) : string :=
  match markup with
  | None => ""
  | Some s => encode s
  end.

(** Template text up to [<%= bannerUrl %>]. *)
Definition page_top : string := Eval cbv in
  ln 0 "<!DOCTYPE html>" +:+
  ln 0 ("<html lang=" +:+ dq +:+ "en" +:+ dq +:+ ">") +:+
  ln 0 "<head>" +:+
  ln 4 ("<meta charset=" +:+ dq +:+ "UTF-8" +:+ dq +:+ ">") +:+
  ln 4 ("<meta name=" +:+ dq +:+ "viewport" +:+ dq +:+ " content=" +:+ dq
        +:+ "width=device-width, initial-scale=1.0" +:+ dq +:+ ">") +:+
  ln 4 "<title>Node.js App</title>" +:+
  ln 4 ("<link rel=" +:+ dq +:+ "stylesheet" +:+ dq +:+ " href=" +:+ dq
        +:+ "/static/style.css" +:+ dq +:+ ">") +:+
  ln 0 "</head>" +:+
  ln 0 "<body>" +:+
  ln 4 "<header>" +:+
  ln 8 "<h1>Welcome to the Node.js App</h1>" +:+
  spaces 8 +:+ "<img src=" +:+ dq.

(** From there to the scriptlet that opens the loop. *)
Definition page_list_open : string := Eval cbv in
  dq +:+ " alt=" +:+ dq +:+ "Banner Image" +:+ dq +:+ " style=" +:+ dq
     +:+ "width: 100%; max-height: 300px;" +:+ dq +:+ ">" +:+ nl +:+
  ln 4 "</header>" +:+
  ln 4 "<main>" +:+
  ln 8 "<h2>Product List</h2>" +:+
  ln 8 "<ul>" +:+
  spaces 12.

(** The text of the loop body, cut at its three [<%= %>] tags. *)
Definition item_to_name : string := Eval cbv in
  nl +:+ ln 16 "<li>" +:+ spaces 20 +:+ "<h3>".

Definition item_to_description : string := Eval cbv in
  "</h3>" +:+ nl +:+ spaces 20 +:+ "<p>".

Definition item_to_price : string := Eval cbv in
  "</p>" +:+ nl +:+ spaces 20 +:+ "<p>Price: $".

Definition item_close : string := Eval cbv in
  "</p>" +:+ nl +:+ ln 16 "</li>" +:+ spaces 12.

(** After the scriptlet that closes the loop. *)
Definition page_bottom : string := Eval cbv in
  nl +:+ ln 8 "</ul>" +:+ ln 4 "</main>" +:+ ln 0 "</body>" +:+ ln 0 "</html>".

(** What [<%= product.price %>] prints for a row. *)
Definition price_text (p : Product) : string := escapeXML (price p).

(** One turn of [products.forEach(product => { ... })]. *)
Definition item (p : Product) : string :=
  item_to_name +:+ escapeXML (Some (name p)) +:+
  item_to_description +:+ escapeXML (description p) +:+
  item_to_price +:+ price_text p +:+
  item_close.

Fixpoint forEach (ps : list Product) : string :=
  match ps with
  | [] => ""
  | p :: ps' => item p +:+ forEach ps'
  end.

Definition index_ejs (l : Locals) : string :=
  page_top +:+ escapeXML (Some (bannerUrl l)) +:+ page_list_open +:+
  forEach (products l) +:+ page_bottom.

(** The view engine as the script configures it: views are looked up by
    name in views/, which holds index.ejs only. *)
Definition render (view : string) (l : Locals) : string :=
  if String.eqb view "index" then index_ejs l else "".

Definition responses (tr : list (nat * Event)) : list Response :=
  responses_from render 200 tr.

(** *** Reading the rendered text *)

Fixpoint starts_with (pat s : string) : bool :=
  match pat, s with
  | EmptyString, _ => true
  | String _ _, EmptyString => false
  | String a pat', String b s' => Ascii.eqb a b && starts_with pat' s'
  end.

(** How many times [pat] occurs in [s]. *)
Fixpoint occurrences (pat s : string) : nat :=
  match s with
  | EmptyString => 0
  | String c s' =>
      (if starts_with pat (String c s') then 1 else 0) + occurrences pat s'
  end.

(** The item entries of a page: its [<li>] elements. *)
Definition item_entries (page : string) : nat := occurrences "<li>" page.

(** [sub] occurs somewhere in [s]. *)
Fixpoint contains (sub s : string) : bool :=
  starts_with sub s ||
  match s with
  | EmptyString => false
  | String _ s' => contains sub s'
  end.

Definition is_digit (c : ascii) : bool :=
  (48 <=? nat_of_ascii c)%nat && (nat_of_ascii c <=? 57)%nat.

(** Exactly two digits and nothing more. *)
Definition two_digits (s : string) : bool :=
  match s with
  | String a (String b EmptyString) => is_digit a && is_digit b
  | _ => false
  end.

(** Digits up to a point, then [two_digits]. *)
Fixpoint fraction_of (s : string) : bool :=
  match s with
  | EmptyString => false
  | String c s' =>
      if is_digit c then fraction_of s'
      else if Ascii.eqb c "." then two_digits s'
      else false
  end.

(** At least one digit, a point, two digits. *)
Definition unsigned_decimal (s : string) : bool :=
  match s with
  | EmptyString => false
  | String c s' => is_digit c && fraction_of s'
  end.

(** A decimal numeral with exactly two fraction digits, as the database
    prints a DECIMAL(10, 2): an optional minus sign, then
    [unsigned_decimal]. *)
Definition two_fraction_digits (s : string) : bool :=
  match s with
  | EmptyString => false
  | String c s' => if Ascii.eqb c "-" then unsigned_decimal s' else unsigned_decimal s
  end.

(** ** Start-up configuration *)

Inductive Group := Database | ObjectStore.

Definition group_vars (g : Group) : list string :=
  match g with
  | Database => ["DB_HOST"; "DB_USER"; "DB_PASSWORD"; "DB_NAME"]
  | ObjectStore =>
      ["AWS_ACCESS_KEY_ID"; "AWS_SECRET_ACCESS_KEY"; "AWS_REGION"; "S3_BUCKET_NAME"]
  end.

Definition required : list string := group_vars Database ++ group_vars ObjectStore.

(** A variable that is unset or set to the empty string. *)
Definition missing (env : gmap string string) (k : string) : bool :=
  match env !! k with
  | None => true
  | Some v => String.eqb v ""
  end.

Definition incomplete (env : gmap string string) (g : Group) : bool :=
  existsb (missing env) (group_vars g).

(** The message the script prints for a group. *)
Definition diagnostic (g : Group) : string :=
  match g with
  | Database => "Missing required environment variables for database connection"
  | ObjectStore => "Missing required AWS environment variables"
  end.

(** ** Requests *)

(** The calls that write the response: [res.send] and [res.render]. *)
Definition writes_response (e : nat * Event) : bool :=
  match snd e with
  | Did (res_send _) => true
  | Did (res_render _ _) => true
  | _ => false
  end.

Definition is_status (e : nat * Event) : bool :=
  match snd e with Did (res_status _) => true | _ => false end.

(** Requests served one after the other: each starts when the one before
    has run to its end. *)
Fixpoint serve (w : World) (t : nat) (ps : list Prog) : list (list (nat * Event)) :=
  match ps with
  | [] => []
  | p :: ps' => exec w t p :: serve w (length (exec w t p) + t) ps'
  end.

(** The URLs a trace hands to the view as [bannerUrl]. *)
Definition rendered_urls (tr : list (nat * Event)) : list string :=
  flat_map (fun e => match snd e with
                     | Did (res_render _ l) => [bannerUrl l]
                     | _ => []
                     end) tr.

(** The shape of every run of the route. *)
Inductive RootRun (w : World) (env : gmap string string) (s3 : S3Config) (t : nat) :
    list (nat * Event) -> Prop :=
| run_query_failed err :
    mysql_query w t "SELECT * FROM products" = inl err ->
    RootRun w env s3 t
      [(t, Queried "SELECT * FROM products" (inl err));
       (S t, Did (console_error "Error fetching data from database:" (Some err)));
       (S (S t), Did (res_status 500));
       (S (S (S t)), Did (res_send "Database error"))]
| run_signing_failed results err :
    mysql_query w t "SELECT * FROM products" = inr results ->
    presigner w (S t) s3 {| Bucket := env !! "S3_BUCKET_NAME"; Key := "banner.jpg" |}
      {| expiresIn := 3600 |} = inl err ->
    RootRun w env s3 t
      [(t, Queried "SELECT * FROM products" (inr results));
       (S t, Presigned s3 {| Bucket := env !! "S3_BUCKET_NAME"; Key := "banner.jpg" |}
               {| expiresIn := 3600 |} (inl err));
       (S (S t), Did (console_error "Error fetching static file from S3:" (Some err)));
       (S (S (S t)), Did (res_status 500));
       (S (S (S (S t))), Did (res_send "S3 error"))]
| run_rendered results url :
    mysql_query w t "SELECT * FROM products" = inr results ->
    presigner w (S t) s3 {| Bucket := env !! "S3_BUCKET_NAME"; Key := "banner.jpg" |}
      {| expiresIn := 3600 |} = inr url ->
    RootRun w env s3 t
      [(t, Queried "SELECT * FROM products" (inr results));
       (S t, Presigned s3 {| Bucket := env !! "S3_BUCKET_NAME"; Key := "banner.jpg" |}
               {| expiresIn := 3600 |} (inr url));
       (S (S t), Did (res_render "index" {| products := results; bannerUrl := url |}))].

(** ** Sample configurations, rows and worlds *)

(** A complete configuration. *)
Definition full_env : gmap string string :=
  <["DB_HOST" := "db.internal"]> (<["DB_USER" := "shop"]>
  (<["DB_PASSWORD" := "secret"]> (<["DB_NAME" := "node_js_app"]>
  (<["AWS_ACCESS_KEY_ID" := "AKIA"]> (<["AWS_SECRET_ACCESS_KEY" := "k"]>
  (<["AWS_REGION" := "eu-west-1"]> (<["S3_BUCKET_NAME" := "assets"]> ∅))))))).

Definition sample_rows : list Product :=
  [ {| id := 1; name := "Product 1"; description := Some "Description of Product 1";
       price := Some "19.99" |};
    {| id := 2; name := "Product 2"; description := Some "Description of Product 2";
       price := Some "29.99" |} ].

Definition sample_error : JsError :=
  {| err_code := "ER_NO_SUCH_TABLE";
     err_message := "Table 'node_js_app.products' doesn't exist" |}.

(** A URL stamped with the time of its signing. *)
Definition sample_url (t : nat) : string :=
  "https://assets.s3.amazonaws.com/banner.jpg?X-Amz-Expires=3600&X-Amz-Date="
  +:+ NilEmpty.string_of_uint (Nat.to_uint t).

Definition healthy_world : World :=
  {| mysql_query := fun _ _ => inr sample_rows;
     presigner := fun t _ _ _ => inr (sample_url t) |}.

(** A signer that dates its URLs as the SDK does, to the second
    (X-Amz-Date), on a clock of which one tick is a millisecond. *)
Definition whole_seconds_world : World :=
  {| mysql_query := fun _ _ => inr sample_rows;
     presigner := fun t _ _ _ => inr (sample_url (t / 1000)) |}.

Definition failing_db_world : World :=
  {| mysql_query := fun _ _ => inl sample_error;
     presigner := presigner healthy_world |}.

Definition credentials_error : JsError :=
  {| err_code := "CredentialsProviderError";
     err_message := "Could not load credentials from any providers" |}.

Definition failing_s3_world : World :=
  {| mysql_query := fun _ _ => inr sample_rows;
     presigner := fun _ _ _ _ => inl credentials_error |}.

(** A row whose price is NULL, and a world that returns it. *)
Definition unpriced_row : Product :=
  {| id := 3; name := "Product 3"; description := None; price := None |}.

Definition unpriced_world : World :=
  {| mysql_query := fun _ _ => inr [unpriced_row];
     presigner := presigner healthy_world |}.

(** ** Further readings of traces and pages *)

Definition is_error_log (e : nat * Event) : bool :=
  match snd e with Did (console_error _ _) => true | _ => false end.

(** How many times the character [c] occurs in [s]. *)
Fixpoint count_char (c : ascii) (s : string) : nat :=
  match s with
  | EmptyString => 0
  | String x s' => (if Ascii.eqb x c then 1 else 0) + count_char c s'
  end.

(** The characters that open or close a tag or an attribute value. *)
Definition is_markup (c : ascii) : bool :=
  Ascii.eqb c "<" || Ascii.eqb c ">" || Ascii.eqb c "034" || Ascii.eqb c "'".

(** The five characters [encode_char] rewrites. *)
Definition is_special (c : ascii) : bool := Ascii.eqb c "&" || is_markup c.

Fixpoint no_special (s : string) : bool :=
  match s with
  | EmptyString => true
  | String c s' => negb (is_special c) && no_special s'
  end.

(** The text of a column value, a NULL having none. *)
Definition text_of (v : option string) : string :=
  match v with
  | None => ""
  | Some s => s
  end.

(** The template text outside the loop, and the text of one turn of it. *)
Definition page_frame : string := page_top +:+ page_list_open +:+ page_bottom.

Definition item_frame : string :=
  item_to_name +:+ item_to_description +:+ item_to_price +:+ item_close.

(** ** The running process *)

Module Loop.

(** The error the driver gives a query on a pool that [end] has closed. *)
Definition pool_is_closed : JsError :=
  {| err_code := ""; err_message := "Pool is closed." |}.

(** [connectionLimit: 10] of [createPool]: the most queries the pool has
    executing at once; a query checked out beyond that waits its turn. *)
Definition pool_limit : nat := 10.

(** The process between two turns of the event loop.  The pool is the
    driver's.  [db_pending] are the queries checked out and not returned,
    oldest first: the first [executing] of them are on a connection, the
    rest wait for one.  [pool_closed] is the flag [end] sets; from then on
    [busy] counts the connections that have a query executing, and
    [end_pending] holds the callback of [end] until the last of them is
    done. *)
Record Proc := {
  pool_closed : bool;
  busy : nat;
  db_pending : list (string * (QueryResult -> Prog));
  s3_pending : list (S3Config * GetObjectCommand * SignOptions * (SignResult -> Prog));
  end_pending : list Prog;
  on_signal : list (Signal * Prog);
  on_get : list (string * Prog);
  listening : option nat;
  exited : option nat;
  out : list Event
}.

Definition start : Proc :=
  {| pool_closed := false; busy := 0; db_pending := []; s3_pending := [];
     end_pending := []; on_signal := []; on_get := []; listening := None;
     exited := None; out := [] |}.

Definition emit (e : Event) (st : Proc) : Proc :=
  {| pool_closed := pool_closed st; busy := busy st; db_pending := db_pending st;
     s3_pending := s3_pending st; end_pending := end_pending st;
     on_signal := on_signal st; on_get := on_get st; listening := listening st;
     exited := exited st; out := out st ++ [e] |}.

Definition set_exited (code : nat) (st : Proc) : Proc :=
  {| pool_closed := pool_closed st; busy := busy st; db_pending := db_pending st;
     s3_pending := s3_pending st; end_pending := end_pending st;
     on_signal := on_signal st; on_get := on_get st; listening := listening st;
     exited := Some code; out := out st |}.

Definition set_db_pending (l : list (string * (QueryResult -> Prog))) (st : Proc) : Proc :=
  {| pool_closed := pool_closed st; busy := busy st; db_pending := l;
     s3_pending := s3_pending st; end_pending := end_pending st;
     on_signal := on_signal st; on_get := on_get st; listening := listening st;
     exited := exited st; out := out st |}.

Definition set_s3_pending
    (l : list (S3Config * GetObjectCommand * SignOptions * (SignResult -> Prog)))
    (st : Proc) : Proc :=
  {| pool_closed := pool_closed st; busy := busy st; db_pending := db_pending st;
     s3_pending := l; end_pending := end_pending st;
     on_signal := on_signal st; on_get := on_get st; listening := listening st;
     exited := exited st; out := out st |}.

Definition set_end_pending (l : list Prog) (st : Proc) : Proc :=
  {| pool_closed := pool_closed st; busy := busy st; db_pending := db_pending st;
     s3_pending := s3_pending st; end_pending := l;
     on_signal := on_signal st; on_get := on_get st; listening := listening st;
     exited := exited st; out := out st |}.

Definition add_signal (sig : Signal) (h : Prog) (st : Proc) : Proc :=
  {| pool_closed := pool_closed st; busy := busy st; db_pending := db_pending st;
     s3_pending := s3_pending st; end_pending := end_pending st;
     on_signal := on_signal st ++ [(sig, h)]; on_get := on_get st;
     listening := listening st; exited := exited st; out := out st |}.

Definition add_route (path : string) (h : Prog) (st : Proc) : Proc :=
  {| pool_closed := pool_closed st; busy := busy st; db_pending := db_pending st;
     s3_pending := s3_pending st; end_pending := end_pending st;
     on_signal := on_signal st; on_get := on_get st ++ [(path, h)];
     listening := listening st; exited := exited st; out := out st |}.

Definition set_listening (n : nat) (st : Proc) : Proc :=
  {| pool_closed := pool_closed st; busy := busy st; db_pending := db_pending st;
     s3_pending := s3_pending st; end_pending := end_pending st;
     on_signal := on_signal st; on_get := on_get st;
     listening := Some n; exited := exited st; out := out st |}.

Definition alive (st : Proc) : bool :=
  match exited st with None => true | Some _ => false end.

(** The queries that are on a connection. *)
Definition executing (st : Proc) : nat :=
  if pool_closed st then busy st else Nat.min pool_limit (length (db_pending st)).

(** What [pool.end] does to the pool before anything is called back: the
    flag is set, so that nothing is checked out any more and no waiting
    query is given a connection, and each connection is told to quit
    once the query it is executing, if any, is done. *)
Definition close_pool (st : Proc) : Proc :=
  {| pool_closed := true; busy := executing st; db_pending := db_pending st;
     s3_pending := s3_pending st; end_pending := end_pending st;
     on_signal := on_signal st; on_get := on_get st; listening := listening st;
     exited := exited st; out := out st |}.

(** A connection of an ended pool has finished a query. *)
Definition one_less_busy (st : Proc) : Proc :=
  {| pool_closed := pool_closed st; busy := busy st - 1; db_pending := db_pending st;
     s3_pending := s3_pending st; end_pending := end_pending st;
     on_signal := on_signal st; on_get := on_get st; listening := listening st;
     exited := exited st; out := out st |}.

(** [pool.end(cb)] on a pool that has queries executing: [cb] waits for
    the last of them. *)
Definition pool_end (cb : Prog) (st : Proc) : Proc :=
  set_end_pending (end_pending st ++ [cb]) (close_pool st).

(** [drive p st]: run the synchronous code of [p] in one turn.  A query on
    an open pool is checked out; on a closed pool its callback gets
    [pool_is_closed] on the next tick.  An [await] parks the continuation.
    [end] calls its callback before it returns when the pool has no query
    executing, its connections quitting there and then, and also when the
    pool was ended before: the connections then refuse the second quit,
    and the callback gets their error, which the script does not look at.
    Otherwise the callback waits. *)
Fixpoint drive (p : Prog) (st : Proc) : Proc :=
  match p with
  | Done => st
  | Act a k => drive k (emit (Did a) st)
  | ProcessExit code => set_exited code (emit (Exit code) st)
  | AppGet path h k => drive k (add_route path h (emit (Routed path h) st))
  | AppListen n cb k =>
      let st' := drive k (set_listening n (emit (Bound n) st)) in
      if alive st' then drive cb st' else st'
  | ProcessOn sig h k => drive k (add_signal sig h (emit (Hooked sig h) st))
  | DbQuery sql cb k =>
      if pool_closed st then
        let st' := drive k st in
        if alive st' then
          drive (cb (inl pool_is_closed)) (emit (Queried sql (inl pool_is_closed)) st')
        else st'
      else drive k (set_db_pending (db_pending st ++ [(sql, cb)]) st)
  | DbEnd cb k =>
      if pool_closed st || (executing st =? 0)%nat then
        let st' := drive cb (close_pool (emit PoolEnd st)) in
        if alive st' then drive k st' else st'
      else drive k (pool_end cb (emit PoolEnd st))
  | GetSignedUrl c cmd o k =>
      set_s3_pending (s3_pending st ++ [(c, cmd, o, k)]) st
  end.

(** What can happen to the process from outside: a request comes in, the
    [i]-th pending query or signing returns, a signal is delivered. *)
Inductive Input :=
| Request (path : string)
| QueryDone (i : nat) (r : QueryResult)
| SignDone (i : nat) (r : SignResult)
| Sig (s : Signal).

Fixpoint handler_of (s : Signal) (hs : list (Signal * Prog)) : option Prog :=
  match hs with
  | [] => None
  | (s', h) :: hs' => if Signal_eqb s s' then Some h else handler_of s hs'
  end.

Fixpoint route_of (path : string) (rs : list (string * Prog)) : option Prog :=
  match rs with
  | [] => None
  | (p, h) :: rs' => if String.eqb path p then Some h else route_of path rs'
  end.

Fixpoint remove_nth {A} (i : nat) (l : list A) : list A :=
  match l, i with
  | [], _ => []
  | _ :: l', O => l'
  | x :: l', S i' => x :: remove_nth i' l'
  end.

(** A connection of an ended pool starts to quit: if it was the last one
    busy, the callback of [end] is called. *)
Definition quit (st : Proc) : Proc :=
  if (busy st =? 0)%nat then
    match end_pending st with
    | cb :: cbs => drive cb (set_end_pending cbs st)
    | [] => st
    end
  else st.

(** A query returns on a connection of an ended pool.  An error is handed
    to the callback of the query at once, and then the connection quits.
    Rows are handed over on the next tick, after the connection has begun
    to quit: if that ends the process, the callback of the query is never
    called. *)
Definition returned_to_ended_pool (sql : string) (cb : QueryResult -> Prog)
    (r : QueryResult) (st : Proc) : Proc :=
  match r with
  | inl _ => quit (drive (cb r) (emit (Queried sql r) st))
  | inr _ =>
      let st' := quit st in
      if alive st' then drive (cb r) (emit (Queried sql r) st') else st'
  end.

(** One turn of the loop.  A request is served if the port is bound and
    the path routed.  A query that is executing returns, and its callback
    is called with what it returns ([Queried] is that call).  A signing
    that is awaited returns.  A signal runs its handler, or without one
    the runtime's default action.  A process that has exited does
    nothing. *)
Definition step (i : Input) (st : Proc) : Proc :=
  if alive st then
    match i with
    | Request path =>
        match listening st, route_of path (on_get st) with
        | Some _, Some h => drive h st
        | _, _ => st
        end
    | QueryDone n r =>
        if (n <? executing st)%nat then
          match nth_error (db_pending st) n with
          | Some (sql, cb) =>
              if pool_closed st then
                returned_to_ended_pool sql cb r
                  (one_less_busy (set_db_pending (remove_nth n (db_pending st)) st))
              else
                drive (cb r)
                  (emit (Queried sql r)
                     (set_db_pending (remove_nth n (db_pending st)) st))
          | None => st
          end
        else st
    | SignDone n r =>
        match nth_error (s3_pending st) n with
        | Some (c, cmd, o, k) =>
            drive (k r)
              (emit (Presigned c cmd o r)
                 (set_s3_pending (remove_nth n (s3_pending st)) st))
        | None => st
        end
    | Sig s =>
        match handler_of s (on_signal st) with
        | Some h => drive h st
        | None =>
            match default_action s with
            | Some code => set_exited code (emit (Exit code) st)
            | None => st
            end
        end
    end
  else st.

Definition run (ins : list Input) (st : Proc) : Proc :=
  fold_left (fun st i => step i st) ins st.

(** The process once the script has run. *)
Definition boot (env : gmap string string) : Proc := drive (main env) start.

(** What holds of the process from boot on: the one signal handler and the
    one route the script installed, and, parked in the pool and on the
    promises, only callbacks of that route and of that handler. *)
Record Inv (env : gmap string string) (st : Proc) : Prop := {
  inv_signal : on_signal st = [(SIGINT, on_sigint)];
  inv_get : on_get st = [("/", get_root env (s3_config env))];
  inv_db : Forall (fun q => snd q = on_query_result env (s3_config env)) (db_pending st);
  inv_s3 : Forall (fun s => exists results, snd s = on_signed_url results) (s3_pending st);
  inv_end : Forall (fun cb => cb = on_pool_closed) (end_pending st)
}.

(** The pool of a running process: not ended and with no callback
    waiting, or ended with the callback of [end] waiting for at least one
    query that is executing. *)
Definition PoolSound (st : Proc) : Prop :=
  if pool_closed st
  then end_pending st = [on_pool_closed] /\ 0 < busy st <= length (db_pending st)
  else end_pending st = [].


(** *** Counting requests, responses and calls *)

(** The events that write a response. *)
Definition writes (e : Event) : bool :=
  match e with
  | Did (res_send _) => true
  | Did (res_render _ _) => true
  | _ => false
  end.

(** The responses written so far. *)
Definition answered (st : Proc) : nat := length (List.filter writes (out st)).

Definition is_root_request (i : Input) : bool :=
  match i with Request path => String.eqb path "/" | _ => false end.

(** The requests for the route among the inputs. *)
Definition accepted (ins : list Input) : nat :=
  length (List.filter is_root_request ins).

(** A query that returned rows; a signing that returned. *)
Definition rows_returned (e : Event) : bool :=
  match e with Queried _ (inr _) => true | _ => false end.

Definition signing_returned (e : Event) : bool :=
  match e with Presigned _ _ _ _ => true | _ => false end.

(** A signing call made with the client, the command and the options of
    the route. *)
Definition signs_as_configured (env : gmap string string)
    (c : S3Config) (cmd : GetObjectCommand) (o : SignOptions) : Prop :=
  c = s3_config env /\
  cmd = {| Bucket := env !! "S3_BUCKET_NAME"; Key := "banner.jpg" |} /\
  o = {| expiresIn := 3600 |}.

Definition event_as_configured (env : gmap string string) (e : Event) : Prop :=
  match e with
  | Presigned c cmd o _ => signs_as_configured env c cmd o
  | Did (new_S3Client c) => c = s3_config env
  | _ => True
  end.

(** The signings awaited and the calls logged are those of the route with
    the client of the script. *)
Record Configured (env : gmap string string) (st : Proc) : Prop := {
  conf_pending :
    Forall (fun s => let '(c, cmd, o, _) := s in signs_as_configured env c cmd o)
      (s3_pending st);
  conf_out : Forall (event_as_configured env) (out st)
}.

(** *** Where rendered data comes from *)

(** The continuation [k] renders rows that a query has returned. *)
Definition rows_known (o : list Event) (k : SignResult -> Prog) : Prop :=
  exists results,
    k = on_signed_url results /\
    In (Queried "SELECT * FROM products" (inr results)) o.

(** A render of "index" with rows that a query returned and a URL that a
    signing returned. *)
Definition render_known (o : list Event) (e : Event) : Prop :=
  match e with
  | Did (res_render v l) =>
      v = "index" /\
      In (Queried "SELECT * FROM products" (inr (products l))) o /\
      exists c cmd op, In (Presigned c cmd op (inr (bannerUrl l))) o
  | _ => True
  end.

Record Sourced (st : Proc) : Prop := {
  src_db : Forall (fun q => fst q = "SELECT * FROM products") (db_pending st);
  src_pending : Forall (fun s => rows_known (out st) (snd s)) (s3_pending st);
  src_out : Forall (render_known (out st)) (out st)
}.

End Loop.

(** * Properties *)

(** Membership in a trace that is known event by event: keep the events
    the hypothesis can equal. *)
Ltac in_trace H :=
  simpl in H;
  repeat (destruct H as [H|H]; [try discriminate H|]);
  try (exfalso; exact H).

(** A position in a trace that is known event by event: one case an
    event, [tac] run on each. *)
Ltac split_nth H i tac :=
  destruct i as [|i]; simpl in H;
  [ first [discriminate H | injection H as <-; tac]
  | first [discriminate H | split_nth H i tac] ].

(** ** Start-up validation *)

Lemma js_not_missing (env : gmap string string) (k : string) :
  js_not (env !! k) = missing env k.
Proof.
  unfold js_not, missing, truthy.
  destruct (env !! k) as [[|c v]|]; reflexivity.
Qed.

Lemma database_check (env : gmap string string) :
  js_not (env !! "DB_HOST") || js_not (env !! "DB_USER")
  || js_not (env !! "DB_PASSWORD") || js_not (env !! "DB_NAME")
  = incomplete env Database.
Proof.
  unfold incomplete; simpl. rewrite !js_not_missing.
  rewrite orb_false_r, !orb_assoc. reflexivity.
Qed.

Lemma object_store_check (env : gmap string string) :
  js_not (env !! "AWS_ACCESS_KEY_ID") || js_not (env !! "AWS_SECRET_ACCESS_KEY")
  || js_not (env !! "AWS_REGION") || js_not (env !! "S3_BUCKET_NAME")
  = incomplete env ObjectStore.
Proof.
  unfold incomplete; simpl. rewrite !js_not_missing.
  rewrite orb_false_r, !orb_assoc. reflexivity.
Qed.

(** The script with its two checks folded to the group predicates. *)
Lemma main_checks (env : gmap string string) :
  main env =
  (act (createPool (db_config env)) ;;
   when (incomplete env Database)
     (act (console_error (diagnostic Database) None) ;; ProcessExit 1) ;;
   when (incomplete env ObjectStore)
     (act (console_error (diagnostic ObjectStore) None) ;; ProcessExit 1) ;;
   act (new_S3Client (s3_config env)) ;;
   act (app_use "/static" "public") ;;
   act (app_set "view engine" "ejs") ;;
   AppGet "/" (get_root env (s3_config env)) Done ;;
   AppListen port (act (console_log "App running at http://localhost:3000")) Done ;;
   ProcessOn SIGINT on_sigint Done)%prog.
Proof.
  unfold main. rewrite database_check, object_store_check. reflexivity.
Qed.

Lemma main_database_incomplete (w : World) (t : nat) (env : gmap string string) :
  incomplete env Database = true ->
  exec w t (main env) =
  [(t, Did (createPool (db_config env)));
   (S t, Did (console_error (diagnostic Database) None));
   (S (S t), Exit 1)].
Proof. intros H. rewrite main_checks, H. reflexivity. Qed.

Lemma main_object_store_incomplete (w : World) (t : nat) (env : gmap string string) :
  incomplete env Database = false ->
  incomplete env ObjectStore = true ->
  exec w t (main env) =
  [(t, Did (createPool (db_config env)));
   (S t, Did (console_error (diagnostic ObjectStore) None));
   (S (S t), Exit 1)].
Proof. intros H1 H2. rewrite main_checks, H1, H2. reflexivity. Qed.

Lemma missing_required_group (env : gmap string string) :
  (exists k, In k required /\ missing env k = true) ->
  incomplete env Database = true \/ incomplete env ObjectStore = true.
Proof.
  intros (k & Hin & Hk). unfold required in Hin.
  apply in_app_or in Hin. unfold incomplete.
  destruct Hin as [Hin|Hin]; [left|right]; apply existsb_exists; eauto.
Qed.

(** C1: whenever one of the eight required variables is unset or empty, the
    script exits with status 1, binds no port, and prints one diagnostic,
    which names a group that is incomplete. *)
Theorem startup_fails_fast (w : World) (env : gmap string string) :
  (exists k, In k required /\ missing env k = true) ->
  exit_status (exec w 0 (main env)) = Some 1 /\
  existsb is_bound (exec w 0 (main env)) = false /\
  exists g, incomplete env g = true /\ stderr (exec w 0 (main env)) = [diagnostic g].
Proof.
  intros H. apply missing_required_group in H.
  destruct (incomplete env Database) eqn:Hdb.
  - rewrite (main_database_incomplete w 0 env Hdb).
    repeat split; try reflexivity. exists Database. split; [exact Hdb | reflexivity].
  - destruct H as [H|H]; [discriminate|].
    rewrite (main_object_store_incomplete w 0 env Hdb H).
    repeat split; try reflexivity. exists ObjectStore. split; [exact H | reflexivity].
Qed.

Lemma startup_fails_fast_witness :
  exit_status (exec healthy_world 0 (main (delete "AWS_REGION" full_env))) = Some 1 /\
  existsb is_bound (exec healthy_world 0 (main (delete "AWS_REGION" full_env))) = false /\
  exists g, incomplete (delete "AWS_REGION" full_env) g = true /\
            stderr (exec healthy_world 0 (main (delete "AWS_REGION" full_env)))
            = [diagnostic g].
Proof.
  apply (startup_fails_fast healthy_world (delete "AWS_REGION" full_env)).
  exists "AWS_REGION". split; [simpl; tauto | vm_compute; reflexivity].
Defined.

(** C10: with both groups incomplete the only diagnostic is the database
    one and the run stops there, before the object-store check; and no
    configuration gets more than one diagnostic. *)
Theorem database_group_reported_first (w : World) (env : gmap string string) :
  (incomplete env Database = true ->
   incomplete env ObjectStore = true ->
   exec w 0 (main env) =
     [(0, Did (createPool (db_config env)));
      (1, Did (console_error (diagnostic Database) None));
      (2, Exit 1)] /\
   stderr (exec w 0 (main env)) = [diagnostic Database] /\
   ~ In (diagnostic ObjectStore) (stderr (exec w 0 (main env)))) /\
  length (stderr (exec w 0 (main env))) <= 1.
Proof.
  split.
  - intros Hdb _. rewrite (main_database_incomplete w 0 env Hdb).
    repeat split; try reflexivity.
    simpl. intros [H|[]]. discriminate H.
  - destruct (incomplete env Database) eqn:Hdb.
    + rewrite (main_database_incomplete w 0 env Hdb). simpl. lia.
    + destruct (incomplete env ObjectStore) eqn:Hs3.
      * rewrite (main_object_store_incomplete w 0 env Hdb Hs3). simpl. lia.
      * rewrite main_checks, Hdb, Hs3. simpl. lia.
Qed.

Lemma database_group_reported_first_witness :
  stderr (exec healthy_world 0 (main (delete "DB_USER" (delete "S3_BUCKET_NAME" full_env))))
  = [diagnostic Database].
Proof.
  apply (database_group_reported_first healthy_world
           (delete "DB_USER" (delete "S3_BUCKET_NAME" full_env)));
    vm_compute; reflexivity.
Defined.

(** ** The rendered page *)

Lemma append_cons (c : ascii) (a b : string) :
  String c a +:+ b = String c (a +:+ b).
Proof. reflexivity. Qed.

Lemma append_assoc (a b c : string) : (a +:+ b) +:+ c = a +:+ b +:+ c.
Proof.
  induction a as [|x a IH]; [reflexivity|].
  now rewrite !append_cons, IH.
Qed.

Lemma occurrences_skip (c : ascii) (r : string) :
  Ascii.eqb c "<" = false ->
  occurrences "<li>" (String c r) = occurrences "<li>" r.
Proof.
  intros H. cbn [occurrences starts_with].
  rewrite Ascii.eqb_sym, H. reflexivity.
Qed.

(** An encoded character never opens a tag. *)
Lemma occurrences_encode_char (c : ascii) (r : string) :
  occurrences "<li>" (encode_char c +:+ r) = occurrences "<li>" r.
Proof.
  unfold encode_char.
  destruct (Ascii.eqb c "&"); [reflexivity|].
  destruct (Ascii.eqb c "<") eqn:Hlt; [reflexivity|].
  destruct (Ascii.eqb c ">"); [reflexivity|].
  destruct (Ascii.eqb c "034"); [reflexivity|].
  destruct (Ascii.eqb c "'"); [reflexivity|].
  change (String c EmptyString +:+ r) with (String c r).
  now apply occurrences_skip.
Qed.

Lemma occurrences_encode (s r : string) :
  occurrences "<li>" (encode s +:+ r) = occurrences "<li>" r.
Proof.
  induction s as [|c s IH]; simpl encode; [reflexivity|].
  rewrite append_assoc, occurrences_encode_char. exact IH.
Qed.

Lemma occurrences_escapeXML (v : option string) (r : string) :
  occurrences "<li>" (escapeXML v +:+ r) = occurrences "<li>" r.
Proof. destruct v; [apply occurrences_encode | reflexivity]. Qed.

(** Each turn of the loop writes one [<li>]. *)
Lemma occurrences_item (p : Product) (r : string) :
  occurrences "<li>" (item p +:+ r) = S (occurrences "<li>" r).
Proof.
  unfold item, price_text. rewrite !append_assoc.
  change (occurrences "<li>" (item_to_name +:+ ?x)) with (S (occurrences "<li>" x)).
  rewrite occurrences_escapeXML.
  change (occurrences "<li>" (item_to_description +:+ ?x)) with (occurrences "<li>" x).
  rewrite occurrences_escapeXML.
  change (occurrences "<li>" (item_to_price +:+ ?x)) with (occurrences "<li>" x).
  rewrite occurrences_escapeXML.
  reflexivity.
Qed.

Lemma occurrences_forEach (ps : list Product) (r : string) :
  occurrences "<li>" (forEach ps +:+ r) = length ps + occurrences "<li>" r.
Proof.
  induction ps as [|p ps IH]; simpl forEach; [reflexivity|].
  rewrite append_assoc, occurrences_item, IH. reflexivity.
Qed.

(** The page has as many item entries as the rows it was given. *)
Lemma item_entries_index (l : Locals) :
  item_entries (index_ejs l) = length (products l).
Proof.
  unfold item_entries, index_ejs.
  change (occurrences "<li>" (page_top +:+ ?x)) with (occurrences "<li>" x).
  rewrite occurrences_escapeXML.
  change (occurrences "<li>" (page_list_open +:+ ?x)) with (occurrences "<li>" x).
  rewrite occurrences_forEach.
  change (occurrences "<li>" page_bottom) with 0. lia.
Qed.

Lemma starts_with_append (x r : string) : starts_with x (x +:+ r) = true.
Proof.
  induction x as [|c x IH]; [reflexivity|].
  rewrite append_cons. simpl. now rewrite Ascii.eqb_refl, IH.
Qed.

Lemma contains_here (x r : string) : contains x (x +:+ r) = true.
Proof.
  pose proof (starts_with_append x r) as H.
  destruct (x +:+ r); simpl; now rewrite H.
Qed.

Lemma contains_after (a x s : string) :
  contains x s = true -> contains x (a +:+ s) = true.
Proof.
  intros H. induction a as [|c a IH]; [exact H|].
  rewrite append_cons. cbn [contains]. rewrite IH. apply orb_true_r.
Qed.

Lemma contains_middle (a x b : string) : contains x (a +:+ x +:+ b) = true.
Proof. apply contains_after, contains_here. Qed.

Lemma contains_forEach (p : Product) (ps : list Product) (r : string) :
  In p ps -> contains (item p) (forEach ps +:+ r) = true.
Proof.
  induction ps as [|q ps IH]; intros Hin; [destruct Hin|].
  simpl forEach. rewrite append_assoc.
  destruct Hin as [->|Hin]; [apply contains_here | apply contains_after, IH, Hin].
Qed.

Lemma contains_item_index (p : Product) (l : Locals) :
  In p (products l) -> contains (item p) (index_ejs l) = true.
Proof.
  intros Hin. unfold index_ejs.
  now apply contains_after, contains_after, contains_after, contains_forEach.
Qed.

Lemma contains_block (a x1 x2 x3 b : string) :
  contains (x1 +:+ x2 +:+ x3) (a +:+ x1 +:+ x2 +:+ x3 +:+ b) = true.
Proof.
  rewrite <- (append_assoc x2 x3 b), <- (append_assoc x1 (x2 +:+ x3) b).
  apply contains_middle.
Qed.

(** The three paragraphs of an entry. *)
Lemma item_shows_name (p : Product) :
  contains ("<h3>" +:+ escapeXML (Some (name p)) +:+ "</h3>") (item p) = true.
Proof.
  exact (contains_block (nl +:+ ln 16 "<li>" +:+ spaces 20)
           "<h3>" (escapeXML (Some (name p))) "</h3>"
           ((nl +:+ spaces 20 +:+ "<p>") +:+ escapeXML (description p) +:+
            item_to_price +:+ price_text p +:+ item_close)).
Qed.

Lemma item_shows_description (p : Product) :
  contains ("<p>" +:+ escapeXML (description p) +:+ "</p>") (item p) = true.
Proof.
  unfold item. apply (contains_after item_to_name), contains_after.
  exact (contains_block ("</h3>" +:+ nl +:+ spaces 20)
           "<p>" (escapeXML (description p)) "</p>"
           ((nl +:+ spaces 20 +:+ "<p>Price: $") +:+ price_text p +:+ item_close)).
Qed.

Lemma item_shows_price (p : Product) :
  contains ("<p>Price: $" +:+ price_text p +:+ "</p>") (item p) = true.
Proof.
  unfold item. apply (contains_after item_to_name), contains_after.
  apply (contains_after item_to_description), contains_after.
  exact (contains_block ("</p>" +:+ nl +:+ spaces 20)
           "<p>Price: $" (price_text p) "</p>" (nl +:+ ln 16 "</li>" +:+ spaces 12)).
Qed.

(** Digits, the point and the minus sign pass the encoding unchanged. *)
Lemma encode_char_digit (c : ascii) :
  is_digit c = true -> encode_char c = String c EmptyString.
Proof.
  intros H. unfold encode_char.
  repeat (match goal with
          | |- context [Ascii.eqb c ?x] =>
              destruct (Ascii.eqb_spec c x) as [->|_]; [discriminate H|]
          end).
  reflexivity.
Qed.

Lemma encode_two_digits (s : string) : two_digits s = true -> encode s = s.
Proof.
  destruct s as [|a [|b [|? ?]]]; simpl; try discriminate.
  intros H. apply andb_prop in H as [Ha Hb].
  now rewrite (encode_char_digit a Ha), (encode_char_digit b Hb).
Qed.

Lemma encode_fraction_of (s : string) : fraction_of s = true -> encode s = s.
Proof.
  induction s as [|c s IH]; simpl; [discriminate|].
  destruct (is_digit c) eqn:Hd.
  - intros H. now rewrite (encode_char_digit c Hd), (IH H).
  - destruct (Ascii.eqb_spec c ".") as [->|_]; [|discriminate].
    intros H. now rewrite (encode_two_digits s H).
Qed.

Lemma encode_unsigned_decimal (s : string) : unsigned_decimal s = true -> encode s = s.
Proof.
  destruct s as [|c s]; simpl; [discriminate|].
  intros H. apply andb_prop in H as [Hc Hs].
  now rewrite (encode_char_digit c Hc), (encode_fraction_of s Hs).
Qed.

Lemma encode_two_fraction_digits (s : string) :
  two_fraction_digits s = true -> encode s = s.
Proof.
  destruct s as [|c s]; [discriminate|]. unfold two_fraction_digits.
  destruct (Ascii.eqb_spec c "-") as [->|_]; intros H.
  - simpl. now rewrite (encode_unsigned_decimal s H).
  - now apply encode_unsigned_decimal.
Qed.

(** ** One request *)

(** The three runs of the route, by what the collaborators answer. *)
Lemma get_root_query_failed (w : World) (env : gmap string string) (s3 : S3Config)
    (t : nat) (err : JsError) :
  mysql_query w t "SELECT * FROM products" = inl err ->
  exec w t (get_root env s3) =
  [(t, Queried "SELECT * FROM products" (inl err));
   (S t, Did (console_error "Error fetching data from database:" (Some err)));
   (S (S t), Did (res_status 500));
   (S (S (S t)), Did (res_send "Database error"))].
Proof. intros H. unfold get_root. cbn [exec]. rewrite H. reflexivity. Qed.

Lemma get_root_signing_failed (w : World) (env : gmap string string) (s3 : S3Config)
    (t : nat) (results : list Product) (err : JsError) :
  mysql_query w t "SELECT * FROM products" = inr results ->
  presigner w (S t) s3 {| Bucket := env !! "S3_BUCKET_NAME"; Key := "banner.jpg" |}
    {| expiresIn := 3600 |} = inl err ->
  exec w t (get_root env s3) =
  [(t, Queried "SELECT * FROM products" (inr results));
   (S t, Presigned s3 {| Bucket := env !! "S3_BUCKET_NAME"; Key := "banner.jpg" |}
           {| expiresIn := 3600 |} (inl err));
   (S (S t), Did (console_error "Error fetching static file from S3:" (Some err)));
   (S (S (S t)), Did (res_status 500));
   (S (S (S (S t))), Did (res_send "S3 error"))].
Proof.
  intros Hq Hs. unfold get_root. cbn [exec]. rewrite Hq.
  cbn [on_query_result exec later existsb length Nat.add app]. rewrite Hs. reflexivity.
Qed.

Lemma get_root_rendered (w : World) (env : gmap string string) (s3 : S3Config)
    (t : nat) (results : list Product) (url : string) :
  mysql_query w t "SELECT * FROM products" = inr results ->
  presigner w (S t) s3 {| Bucket := env !! "S3_BUCKET_NAME"; Key := "banner.jpg" |}
    {| expiresIn := 3600 |} = inr url ->
  exec w t (get_root env s3) =
  [(t, Queried "SELECT * FROM products" (inr results));
   (S t, Presigned s3 {| Bucket := env !! "S3_BUCKET_NAME"; Key := "banner.jpg" |}
           {| expiresIn := 3600 |} (inr url));
   (S (S t), Did (res_render "index" {| products := results; bannerUrl := url |}))].
Proof.
  intros Hq Hs. unfold get_root. cbn [exec]. rewrite Hq.
  cbn [on_query_result exec later existsb length Nat.add app]. rewrite Hs. reflexivity.
Qed.

Lemma get_root_runs (w : World) (env : gmap string string) (s3 : S3Config) (t : nat) :
  RootRun w env s3 t (exec w t (get_root env s3)).
Proof.
  destruct (mysql_query w t "SELECT * FROM products") as [err|results] eqn:Hq.
  - rewrite (get_root_query_failed w env s3 t err Hq). now constructor.
  - destruct (presigner w (S t) s3
                {| Bucket := env !! "S3_BUCKET_NAME"; Key := "banner.jpg" |}
                {| expiresIn := 3600 |}) as [err|url] eqn:Hs.
    + rewrite (get_root_signing_failed w env s3 t results err Hq Hs).
      now apply run_signing_failed.
    + rewrite (get_root_rendered w env s3 t results url Hq Hs).
      now apply run_rendered.
Qed.

(** C3: when the query fails the response is 500 with the fixed body
    "Database error", the same whatever the error was; the error goes to
    the log; nothing is signed and nothing is rendered. *)
Theorem database_failure_response (w : World) (env : gmap string string)
    (s3 : S3Config) (t : nat) (err : JsError) :
  mysql_query w t "SELECT * FROM products" = inl err ->
  responses (exec w t (get_root env s3))
    = [{| status := 500; body := "Database error" |}] /\
  logged_errors (exec w t (get_root env s3)) = [err] /\
  existsb is_presign (exec w t (get_root env s3)) = false /\
  existsb is_render (exec w t (get_root env s3)) = false /\
  (forall (w' : World) (err' : JsError),
     mysql_query w' t "SELECT * FROM products" = inl err' ->
     responses (exec w' t (get_root env s3)) = responses (exec w t (get_root env s3))).
Proof.
  intros H. rewrite (get_root_query_failed w env s3 t err H).
  repeat split; try reflexivity.
  intros w' err' H'. now rewrite (get_root_query_failed w' env s3 t err' H').
Qed.

Lemma database_failure_response_witness :
  responses (exec failing_db_world 0 (get_root full_env (s3_config full_env)))
    = [{| status := 500; body := "Database error" |}].
Proof.
  apply (database_failure_response failing_db_world full_env (s3_config full_env)
           0 sample_error).
  reflexivity.
Defined.

(** C2: when the query succeeds and the signing fails the response is 500
    with the body "S3 error", which is not the body of the database
    failure; the rows are dropped: there is no render. *)
Theorem signing_failure_response (w : World) (env : gmap string string)
    (s3 : S3Config) (t : nat) (results : list Product) (err : JsError) :
  mysql_query w t "SELECT * FROM products" = inr results ->
  presigner w (S t) s3 {| Bucket := env !! "S3_BUCKET_NAME"; Key := "banner.jpg" |}
    {| expiresIn := 3600 |} = inl err ->
  responses (exec w t (get_root env s3)) = [{| status := 500; body := "S3 error" |}] /\
  (forall r, In r (responses (exec w t (get_root env s3))) ->
             body r <> "Database error") /\
  existsb is_render (exec w t (get_root env s3)) = false /\
  logged_errors (exec w t (get_root env s3)) = [err].
Proof.
  intros Hq Hs. rewrite (get_root_signing_failed w env s3 t results err Hq Hs).
  repeat split; try reflexivity.
  intros r [<-|[]]. discriminate.
Qed.

Lemma signing_failure_response_witness :
  responses (exec failing_s3_world 0 (get_root full_env (s3_config full_env)))
    = [{| status := 500; body := "S3 error" |}].
Proof.
  apply (signing_failure_response failing_s3_world full_env (s3_config full_env)
           0 sample_rows credentials_error); reflexivity.
Defined.

(** C4, as stated, fails: the query and the signing succeed, the page has
    its one entry, and the price paragraph of that entry holds no digits
    at all, for the row has no price and the template formats nothing. *)
Lemma unpriced_row_counterexample :
  exists url,
    exec unpriced_world 0 (get_root full_env (s3_config full_env)) =
      [(0, Queried "SELECT * FROM products" (inr [unpriced_row]));
       (1, Presigned (s3_config full_env)
             {| Bucket := Some "assets"; Key := "banner.jpg" |}
             {| expiresIn := 3600 |} (inr url));
       (2, Did (res_render "index" {| products := [unpriced_row]; bannerUrl := url |}))] /\
    item_entries (index_ejs {| products := [unpriced_row]; bannerUrl := url |}) = 1 /\
    contains "<p>Price: $</p>" (item unpriced_row) = true /\
    price_text unpriced_row = "" /\
    two_fraction_digits (price_text unpriced_row) = false.
Proof. eexists. repeat split; vm_compute; reflexivity. Qed.

(** C4, amended: when the query and the signing succeed the handler renders
    "index" with all the rows and the URL, and that is the response, with
    status 200.  The page has one entry a row; each entry shows the row's
    name, its description and its price as the database delivered them,
    encoded for HTML and empty for NULL; a price delivered with two
    fraction digits is shown as it is. *)
Theorem success_renders_rows (w : World) (env : gmap string string)
    (s3 : S3Config) (t : nat) (results : list Product) (url : string) :
  mysql_query w t "SELECT * FROM products" = inr results ->
  presigner w (S t) s3 {| Bucket := env !! "S3_BUCKET_NAME"; Key := "banner.jpg" |}
    {| expiresIn := 3600 |} = inr url ->
  List.filter is_render (exec w t (get_root env s3))
    = [(S (S t), Did (res_render "index" {| products := results; bannerUrl := url |}))] /\
  responses (exec w t (get_root env s3))
    = [{| status := 200;
          body := index_ejs {| products := results; bannerUrl := url |} |}] /\
  item_entries (index_ejs {| products := results; bannerUrl := url |}) = length results /\
  (forall p, In p results ->
     contains (item p) (index_ejs {| products := results; bannerUrl := url |}) = true /\
     contains ("<h3>" +:+ escapeXML (Some (name p)) +:+ "</h3>") (item p) = true /\
     contains ("<p>" +:+ escapeXML (description p) +:+ "</p>") (item p) = true /\
     contains ("<p>Price: $" +:+ escapeXML (price p) +:+ "</p>") (item p) = true /\
     (forall d, price p = Some d -> two_fraction_digits d = true ->
                price_text p = d /\
                contains ("<p>Price: $" +:+ d +:+ "</p>") (item p) = true)).
Proof.
  intros Hq Hs. rewrite (get_root_rendered w env s3 t results url Hq Hs).
  split; [reflexivity|]. split; [reflexivity|].
  split; [apply (item_entries_index {| products := results; bannerUrl := url |})|].
  intros p Hin.
  split; [now apply (contains_item_index p {| products := results; bannerUrl := url |})|].
  split; [apply item_shows_name|].
  split; [apply item_shows_description|].
  split; [apply item_shows_price|].
  intros d Hd H2.
  assert (Hp : price_text p = d).
  { unfold price_text. rewrite Hd. simpl. now apply encode_two_fraction_digits. }
  split; [exact Hp|]. rewrite <- Hp. apply item_shows_price.
Qed.

Lemma success_renders_rows_witness :
  item_entries (index_ejs {| products := sample_rows; bannerUrl := sample_url 1 |}) = 2 /\
  price_text {| id := 1; name := "Product 1";
                description := Some "Description of Product 1";
                price := Some "19.99" |} = "19.99".
Proof.
  destruct (success_renders_rows healthy_world full_env (s3_config full_env) 0
              sample_rows (sample_url 1) eq_refl eq_refl) as (_ & _ & Hn & Hrow).
  split; [exact Hn|].
  destruct (Hrow _ (or_introl eq_refl)) as (_ & _ & _ & _ & Hp).
  apply (Hp "19.99"); reflexivity.
Defined.

(** C5: in every run of the route a signing call comes after a query call
    that returned rows, at a later time; and a run whose query failed has
    no signing call. *)
Theorem signing_follows_successful_fetch (w : World) (env : gmap string string)
    (s3 : S3Config) (t : nat) :
  (forall i e,
     nth_error (exec w t (get_root env s3)) i = Some e ->
     is_presign e = true ->
     exists j q,
       j < i /\ nth_error (exec w t (get_root env s3)) j = Some q /\
       is_query_ok q = true /\ fst q < fst e) /\
  (forall err,
     mysql_query w t "SELECT * FROM products" = inl err ->
     existsb is_presign (exec w t (get_root env s3)) = false).
Proof.
  split.
  - intros i e Hi He.
    destruct (get_root_runs w env s3 t) as [err Hq|results err Hq Hs|results url Hq Hs].
    + do 4 (destruct i as [|i]; [injection Hi as <-; discriminate He|]).
      destruct i; discriminate Hi.
    + destruct i as [|i]; [injection Hi as <-; discriminate He|].
      destruct i as [|i].
      * injection Hi as <-. exists 0, (t, Queried "SELECT * FROM products" (inr results)).
        repeat split; simpl; lia.
      * do 3 (destruct i as [|i]; [injection Hi as <-; discriminate He|]).
        destruct i; discriminate Hi.
    + destruct i as [|i]; [injection Hi as <-; discriminate He|].
      destruct i as [|i].
      * injection Hi as <-. exists 0, (t, Queried "SELECT * FROM products" (inr results)).
        repeat split; simpl; lia.
      * destruct i as [|i]; [injection Hi as <-; discriminate He|].
        destruct i; discriminate Hi.
  - intros err Hq. now rewrite (get_root_query_failed w env s3 t err Hq).
Qed.

Lemma signing_follows_successful_fetch_witness :
  existsb is_presign (exec failing_db_world 0 (get_root full_env (s3_config full_env)))
  = false /\
  exists j q,
    j < 1 /\
    nth_error (exec healthy_world 0 (get_root full_env (s3_config full_env))) j = Some q /\
    is_query_ok q = true.
Proof.
  split.
  - apply (signing_follows_successful_fetch failing_db_world full_env
             (s3_config full_env) 0) with (err := sample_error).
    reflexivity.
  - destruct (signing_follows_successful_fetch healthy_world full_env
                (s3_config full_env) 0) as [H _].
    destruct (H 1 (1, Presigned (s3_config full_env)
                        {| Bucket := Some "assets"; Key := "banner.jpg" |}
                        {| expiresIn := 3600 |}
                        (presigner healthy_world 1 (s3_config full_env)
                           {| Bucket := Some "assets"; Key := "banner.jpg" |}
                           {| expiresIn := 3600 |})))
      as (j & q & Hj & Hq & Hok & _); [reflexivity | reflexivity |].
    exists j, q. auto.
Defined.

(** C6: every signing call of the route asks for the key "banner.jpg" in
    the configured bucket with [expiresIn] 3600, and the URL a render
    receives is the answer to such a call made earlier in the same run. *)
Theorem signed_url_key_and_expiry (w : World) (env : gmap string string)
    (s3 : S3Config) (t : nat) :
  (forall t' c cmd o r,
     In (t', Presigned c cmd o r) (exec w t (get_root env s3)) ->
     Key cmd = "banner.jpg" /\ expiresIn o = 3600 /\
     Bucket cmd = env !! "S3_BUCKET_NAME") /\
  (forall t' v l,
     In (t', Did (res_render v l)) (exec w t (get_root env s3)) ->
     exists t'' c cmd o,
       t'' < t' /\
       In (t'', Presigned c cmd o (inr (bannerUrl l))) (exec w t (get_root env s3)) /\
       Key cmd = "banner.jpg" /\ expiresIn o = 3600).
Proof.
  split.
  - intros t' c cmd o r Hin.
    destruct (get_root_runs w env s3 t) as [err Hq|results err Hq Hs|results url Hq Hs];
      in_trace Hin; injection Hin as <- <- <- <- <-; auto.
  - intros t' v l Hin.
    destruct (get_root_runs w env s3 t) as [err Hq|results err Hq Hs|results url Hq Hs];
      in_trace Hin.
    injection Hin as <- <- <-.
    exists (S t), s3, {| Bucket := env !! "S3_BUCKET_NAME"; Key := "banner.jpg" |},
      {| expiresIn := 3600 |}.
    repeat split; simpl; auto.
Qed.

Lemma signed_url_key_and_expiry_witness :
  Key {| Bucket := Some "assets"; Key := "banner.jpg" |} = "banner.jpg" /\
  expiresIn {| expiresIn := 3600 |} = 3600 /\
  Bucket {| Bucket := Some "assets"; Key := "banner.jpg" |}
    = full_env !! "S3_BUCKET_NAME".
Proof.
  destruct (signed_url_key_and_expiry healthy_world full_env (s3_config full_env) 0)
    as [H _].
  apply (H 1 (s3_config full_env) {| Bucket := Some "assets"; Key := "banner.jpg" |}
           {| expiresIn := 3600 |}
           (presigner healthy_world 1 (s3_config full_env)
              {| Bucket := Some "assets"; Key := "banner.jpg" |} {| expiresIn := 3600 |})).
  vm_compute. right. left. reflexivity.
Defined.

(** C9: every run of the route writes exactly one response, by one of the
    three branches; the write is the last thing the run does, and the
    status is set at most once. *)
Theorem exactly_one_response (w : World) (env : gmap string string)
    (s3 : S3Config) (t : nat) :
  length (responses (exec w t (get_root env s3))) = 1 /\
  length (List.filter writes_response (exec w t (get_root env s3))) = 1 /\
  length (List.filter is_status (exec w t (get_root env s3))) <= 1 /\
  (exists pre e,
     exec w t (get_root env s3) = (pre ++ [e])%list /\ writes_response e = true) /\
  (responses (exec w t (get_root env s3))
     = [{| status := 500; body := "Database error" |}] \/
   responses (exec w t (get_root env s3))
     = [{| status := 500; body := "S3 error" |}] \/
   exists l, responses (exec w t (get_root env s3))
     = [{| status := 200; body := index_ejs l |}]).
Proof.
  destruct (get_root_runs w env s3 t) as [err Hq|results err Hq Hs|results url Hq Hs].
  - repeat split; simpl; try lia.
    + eexists [_; _; _], _. split; reflexivity.
    + left. reflexivity.
  - repeat split; simpl; try lia.
    + eexists [_; _; _; _], _. split; reflexivity.
    + right. left. reflexivity.
  - repeat split; simpl; try lia.
    + eexists [_; _], _. split; reflexivity.
    + right. right. eexists. reflexivity.
Qed.

(** C7, as stated, fails twice over.  The script puts no time of its own
    into the URL: what the URL says about its issuance is the signer's
    doing, and a signer that dates to the second answers two requests
    served within one second with the same URL, though it is called for
    each; the two pages are the same to the byte.  And not every request
    runs both operations: one whose query fails signs nothing. *)
Lemma same_second_counterexample :
  serve whole_seconds_world 0
    [get_root full_env (s3_config full_env); get_root full_env (s3_config full_env)]
  = [exec whole_seconds_world 0 (get_root full_env (s3_config full_env));
     exec whole_seconds_world 3 (get_root full_env (s3_config full_env))] /\
  List.filter is_presign
    (exec whole_seconds_world 0 (get_root full_env (s3_config full_env)))
  = [(1, Presigned (s3_config full_env)
           {| Bucket := Some "assets"; Key := "banner.jpg" |}
           {| expiresIn := 3600 |} (inr (sample_url 0)))] /\
  List.filter is_presign
    (exec whole_seconds_world 3 (get_root full_env (s3_config full_env)))
  = [(4, Presigned (s3_config full_env)
           {| Bucket := Some "assets"; Key := "banner.jpg" |}
           {| expiresIn := 3600 |} (inr (sample_url 0)))] /\
  rendered_urls (exec whole_seconds_world 0 (get_root full_env (s3_config full_env)))
  = [sample_url 0] /\
  rendered_urls (exec whole_seconds_world 3 (get_root full_env (s3_config full_env)))
  = [sample_url 0] /\
  responses (exec whole_seconds_world 0 (get_root full_env (s3_config full_env)))
  = responses (exec whole_seconds_world 3 (get_root full_env (s3_config full_env))) /\
  List.filter is_presign
    (exec failing_db_world 0 (get_root full_env (s3_config full_env))) = [] /\
  rendered_urls (exec failing_db_world 0 (get_root full_env (s3_config full_env))) = [].
Proof. repeat split; vm_compute; reflexivity. Qed.

(** C7, amended: nothing is kept from one request to the next.  Of two
    requests served in sequence each runs the query, answered by the
    database at its own time, and, exactly when that returns rows, one
    signing call, answered by the signer at its own time, the second call
    after the first; a request whose query fails signs nothing.  What a
    request renders are the rows and the URL of its own two calls.  So
    the two URLs differ exactly when the signer answers the two calls
    differently. *)
Theorem no_caching_across_requests (w : World) (env : gmap string string)
    (s3 : S3Config) (t : nat) :
  let h := get_root env s3 in
  let sql := "SELECT * FROM products" in
  let cmd := {| Bucket := env !! "S3_BUCKET_NAME"; Key := "banner.jpg" |} in
  let opts := {| expiresIn := 3600 |} in
  let tr1 := exec w t h in
  let t2 := length tr1 + t in
  let tr2 := exec w t2 h in
  serve w t [h; h] = [tr1; tr2] /\
  t < t2 /\
  List.filter is_query tr1 = [(t, Queried sql (mysql_query w t sql))] /\
  List.filter is_query tr2 = [(t2, Queried sql (mysql_query w t2 sql))] /\
  List.filter is_presign tr1
    = match mysql_query w t sql with
      | inr _ => [(S t, Presigned s3 cmd opts (presigner w (S t) s3 cmd opts))]
      | inl _ => []
      end /\
  List.filter is_presign tr2
    = match mysql_query w t2 sql with
      | inr _ => [(S t2, Presigned s3 cmd opts (presigner w (S t2) s3 cmd opts))]
      | inl _ => []
      end /\
  (forall t' v l, In (t', Did (res_render v l)) tr1 ->
     mysql_query w t sql = inr (products l) /\
     presigner w (S t) s3 cmd opts = inr (bannerUrl l)) /\
  (forall t' v l, In (t', Did (res_render v l)) tr2 ->
     mysql_query w t2 sql = inr (products l) /\
     presigner w (S t2) s3 cmd opts = inr (bannerUrl l)) /\
  (forall u1 u2, rendered_urls tr1 = [u1] -> rendered_urls tr2 = [u2] ->
     (u1 = u2 <->
      presigner w (S t) s3 cmd opts = presigner w (S t2) s3 cmd opts)).
Proof.
  intros h sql cmd opts tr1 t2 tr2.
  assert (Hq : forall u, List.filter is_query (exec w u h)
             = [(u, Queried sql (mysql_query w u sql))]).
  { intros u. subst h sql.
    destruct (get_root_runs w env s3 u) as [err Hq|results err Hq Hs|results url Hq Hs];
      rewrite Hq; reflexivity. }
  assert (Hp : forall u,
             List.filter is_presign (exec w u h)
             = match mysql_query w u sql with
               | inr _ => [(S u, Presigned s3 cmd opts (presigner w (S u) s3 cmd opts))]
               | inl _ => []
               end).
  { intros u. subst h sql cmd opts.
    destruct (get_root_runs w env s3 u) as [err Hq'|rs err Hq' Hs|rs url Hq' Hs];
      rewrite Hq'; [reflexivity | rewrite Hs; reflexivity | rewrite Hs; reflexivity]. }
  assert (Hr : forall u t' v l, In (t', Did (res_render v l)) (exec w u h) ->
             mysql_query w u sql = inr (products l) /\
             presigner w (S u) s3 cmd opts = inr (bannerUrl l)).
  { intros u t' v l Hin. subst h sql cmd opts.
    destruct (get_root_runs w env s3 u) as [err Hq'|rs err Hq' Hs|rs url Hq' Hs];
      in_trace Hin.
    injection Hin as <- <- <-. split; assumption. }
  assert (Hu : forall u x, rendered_urls (exec w u h) = [x] ->
             presigner w (S u) s3 cmd opts = inr x).
  { intros u x. subst h cmd opts.
    destruct (get_root_runs w env s3 u) as [err Hq'|rs err Hq' Hs|rs url Hq' Hs];
      simpl; try discriminate.
    intros [= <-]. exact Hs. }
  assert (Hl : forall u, 3 <= length (exec w u h)).
  { intros u. subst h.
    destruct (get_root_runs w env s3 u); simpl; lia. }
  split; [reflexivity|]. split; [subst t2 tr1; pose proof (Hl t); lia|].
  split; [apply Hq|]. split; [apply Hq|]. split; [apply Hp|]. split; [apply Hp|].
  split; [apply Hr|]. split; [apply Hr|].
  intros u1 u2 H1 H2. apply Hu in H1. apply Hu in H2.
  rewrite H1, H2. split; [now intros ->|now intros [= ->]].
Qed.

Lemma no_caching_across_requests_witness :
  sample_url 1 <> sample_url 4.
Proof.
  intros Heq.
  destruct (no_caching_across_requests healthy_world full_env (s3_config full_env) 0)
    as (_ & _ & _ & _ & _ & _ & _ & _ & Hiff).
  apply (Hiff (sample_url 1) (sample_url 4)) in Heq;
    [discriminate Heq | reflexivity | reflexivity].
Defined.

(** ** Start-up, the whole picture *)

Lemma main_complete (w : World) (t : nat) (env : gmap string string) :
  incomplete env Database = false ->
  incomplete env ObjectStore = false ->
  exec w t (main env) =
  [(t, Did (createPool (db_config env)));
   (S t, Did (new_S3Client (s3_config env)));
   (S (S t), Did (app_use "/static" "public"));
   (S (S (S t)), Did (app_set "view engine" "ejs"));
   (S (S (S (S t))), Routed "/" (get_root env (s3_config env)));
   (S (S (S (S (S t)))), Bound 3000);
   (S (S (S (S (S (S t))))), Hooked SIGINT on_sigint);
   (S (S (S (S (S (S (S t)))))),
    Did (console_log "App running at http://localhost:3000"))].
Proof. intros H1 H2. rewrite main_checks, H1, H2. reflexivity. Qed.

Lemma incomplete_false (env : gmap string string) (g : Group) :
  incomplete env g = false <-> forall k, In k (group_vars g) -> missing env k = false.
Proof.
  unfold incomplete. split.
  - intros H k Hin. destruct (missing env k) eqn:Hk; [|reflexivity].
    assert (existsb (missing env) (group_vars g) = true)
      by (apply existsb_exists; eauto).
    congruence.
  - intros H. destruct (existsb (missing env) (group_vars g)) eqn:He; [|reflexivity].
    apply existsb_exists in He as (k & Hin & Hk). rewrite (H k Hin) in Hk. discriminate.
Qed.

Lemma all_present (env : gmap string string) :
  (forall k, In k required -> missing env k = false) <->
  incomplete env Database = false /\ incomplete env ObjectStore = false.
Proof.
  rewrite !incomplete_false. unfold required. split.
  - intros H. split; intros k Hin; apply H, in_or_app; auto.
  - intros [H1 H2] k Hin. apply in_app_or in Hin as [Hin|Hin]; auto.
Qed.

Lemma some_missing (env : gmap string string) :
  (exists k, In k required /\ missing env k = true) <->
  ~ (forall k, In k required -> missing env k = false).
Proof.
  split.
  - intros (k & Hin & Hk) H. rewrite (H k Hin) in Hk. discriminate.
  - intros H. rewrite all_present in H.
    destruct (incomplete env Database) eqn:Hdb.
    + apply existsb_exists in Hdb as (k & Hin & Hk).
      exists k. split; [apply in_or_app; auto | exact Hk].
    + destruct (incomplete env ObjectStore) eqn:Hs3.
      * apply existsb_exists in Hs3 as (k & Hin & Hk).
        exists k. split; [apply in_or_app; auto | exact Hk].
      * exfalso. apply H. auto.
Qed.

(** X1: the script exits at start-up exactly when a required variable is
    unset or empty, and binds a port exactly when none is.  With all eight
    present it does not exit, writes nothing with console.error, and binds
    one port, 3000, after the route has been installed. *)
Theorem startup_dichotomy (w : World) (env : gmap string string) :
  (exit_status (exec w 0 (main env)) = Some 1 <->
   exists k, In k required /\ missing env k = true) /\
  (existsb is_bound (exec w 0 (main env)) = true <->
   forall k, In k required -> missing env k = false) /\
  ((forall k, In k required -> missing env k = false) ->
   exit_status (exec w 0 (main env)) = None /\
   stderr (exec w 0 (main env)) = [] /\
   List.filter is_bound (exec w 0 (main env)) = [(5, Bound 3000)] /\
   In (4, Routed "/" (get_root env (s3_config env))) (exec w 0 (main env))).
Proof.
  destruct (incomplete env Database) eqn:Hdb;
    [|destruct (incomplete env ObjectStore) eqn:Hs3].
  - assert (Hm : exists k, In k required /\ missing env k = true).
    { apply existsb_exists in Hdb as (k & Hin & Hk).
      exists k. split; [apply in_or_app; auto | exact Hk]. }
    rewrite (main_database_incomplete w 0 env Hdb).
    split; [split; [intros _; exact Hm | reflexivity]|].
    split; [split; [discriminate | intros H; apply some_missing in Hm; tauto]|].
    intros H. apply some_missing in Hm. tauto.
  - assert (Hm : exists k, In k required /\ missing env k = true).
    { apply existsb_exists in Hs3 as (k & Hin & Hk).
      exists k. split; [apply in_or_app; auto | exact Hk]. }
    rewrite (main_object_store_incomplete w 0 env Hdb Hs3).
    split; [split; [intros _; exact Hm | reflexivity]|].
    split; [split; [discriminate | intros H; apply some_missing in Hm; tauto]|].
    intros H. apply some_missing in Hm. tauto.
  - assert (Hall : forall k, In k required -> missing env k = false)
      by (apply all_present; auto).
    rewrite (main_complete w 0 env Hdb Hs3).
    split; [split; [discriminate | intros Hm; apply some_missing in Hm; tauto]|].
    split; [split; [intros _; exact Hall | reflexivity]|].
    intros _. repeat split. simpl. tauto.
Qed.

Lemma startup_dichotomy_witness :
  exit_status (exec healthy_world 0 (main full_env)) = None /\
  List.filter is_bound (exec healthy_world 0 (main full_env)) = [(5, Bound 3000)].
Proof.
  destruct (startup_dichotomy healthy_world full_env) as (_ & _ & H).
  destruct H as (He & _ & Hb & _).
  - apply all_present. split; vm_compute; reflexivity.
  - split; [exact He | exact Hb].
Defined.

(** ** Logging *)

(** X3: a run of the route writes with console.error exactly when it
    answers 500; the label of the message tells which collaborator failed;
    and the message is written before the response. *)
Theorem errors_logged_with_their_domain (w : World) (env : gmap string string)
    (s3 : S3Config) (t : nat) :
  (stderr (exec w t (get_root env s3)) = [] <->
   map status (responses (exec w t (get_root env s3))) = [200]) /\
  (length (stderr (exec w t (get_root env s3))) = 1 <->
   map status (responses (exec w t (get_root env s3))) = [500]) /\
  (stderr (exec w t (get_root env s3)) = ["Error fetching data from database:"] <->
   exists err, mysql_query w t "SELECT * FROM products" = inl err) /\
  (stderr (exec w t (get_root env s3)) = ["Error fetching static file from S3:"] <->
   exists results err,
     mysql_query w t "SELECT * FROM products" = inr results /\
     presigner w (S t) s3 {| Bucket := env !! "S3_BUCKET_NAME"; Key := "banner.jpg" |}
       {| expiresIn := 3600 |} = inl err) /\
  (forall i j e1 e2,
     nth_error (exec w t (get_root env s3)) i = Some e1 -> is_error_log e1 = true ->
     nth_error (exec w t (get_root env s3)) j = Some e2 -> writes_response e2 = true ->
     i < j).
Proof.
  destruct (get_root_runs w env s3 t) as [err Hq|results err Hq Hs|results url Hq Hs].
  - split; [split; discriminate|]. split; [split; reflexivity|].
    split; [split; [eauto | reflexivity]|].
    split; [split; [discriminate | intros (r & e & Hr & _); congruence]|].
    intros i j e1 e2 Hi H1 Hj H2.
    split_nth Hi i ltac:(try discriminate H1);
      split_nth Hj j ltac:(try discriminate H2); lia.
  - split; [split; discriminate|]. split; [split; reflexivity|].
    split; [split; [discriminate | intros (e & He); congruence]|].
    split; [split; [eauto | reflexivity]|].
    intros i j e1 e2 Hi H1 Hj H2.
    split_nth Hi i ltac:(try discriminate H1);
      split_nth Hj j ltac:(try discriminate H2); lia.
  - split; [split; reflexivity|]. split; [split; discriminate|].
    split; [split; [discriminate | intros (e & He); congruence]|].
    split; [split; [discriminate | intros (r & e & _ & He); congruence]|].
    intros i j e1 e2 Hi H1 Hj H2.
    split_nth Hi i ltac:(try discriminate H1).
Qed.

Lemma errors_logged_with_their_domain_witness :
  stderr (exec failing_s3_world 0 (get_root full_env (s3_config full_env)))
  = ["Error fetching static file from S3:"].
Proof.
  apply (errors_logged_with_their_domain failing_s3_world full_env (s3_config full_env) 0).
  exists sample_rows, credentials_error. split; reflexivity.
Defined.

(** ** Markup and data *)

Lemma count_char_append (c : ascii) (a b : string) :
  count_char c (a +:+ b) = count_char c a + count_char c b.
Proof.
  induction a as [|x a IH]; [reflexivity|].
  rewrite append_cons. simpl. rewrite IH. lia.
Qed.

Lemma is_markup_cases (c : ascii) :
  is_markup c = true -> c = "<"%char \/ c = ">"%char \/ c = "034"%char \/ c = "'"%char.
Proof.
  unfold is_markup. intros H.
  destruct (Ascii.eqb_spec c "<"); [auto|].
  destruct (Ascii.eqb_spec c ">"); [auto|].
  destruct (Ascii.eqb_spec c "034"); [auto|].
  destruct (Ascii.eqb_spec c "'"); [auto|]. discriminate H.
Qed.

Lemma count_char_encode_char (c x : ascii) :
  is_markup c = true -> count_char c (encode_char x) = 0.
Proof.
  intros H. unfold encode_char.
  destruct (Ascii.eqb x "&") eqn:E1;
    [destruct (is_markup_cases c H) as [-> | [-> | [-> | ->]]]; reflexivity|].
  destruct (Ascii.eqb x "<") eqn:E2;
    [destruct (is_markup_cases c H) as [-> | [-> | [-> | ->]]]; reflexivity|].
  destruct (Ascii.eqb x ">") eqn:E3;
    [destruct (is_markup_cases c H) as [-> | [-> | [-> | ->]]]; reflexivity|].
  destruct (Ascii.eqb x "034") eqn:E4;
    [destruct (is_markup_cases c H) as [-> | [-> | [-> | ->]]]; reflexivity|].
  destruct (Ascii.eqb x "'") eqn:E5;
    [destruct (is_markup_cases c H) as [-> | [-> | [-> | ->]]]; reflexivity|].
  destruct (is_markup_cases c H) as [-> | [-> | [-> | ->]]]; simpl;
    rewrite ?E2, ?E3, ?E4, ?E5; reflexivity.
Qed.

Lemma count_char_encode (c : ascii) (s : string) :
  is_markup c = true -> count_char c (encode s) = 0.
Proof.
  intros H. induction s as [|x s IH]; [reflexivity|].
  simpl encode. now rewrite count_char_append, (count_char_encode_char c x H), IH.
Qed.

Lemma count_char_escapeXML (c : ascii) (v : option string) :
  is_markup c = true -> count_char c (escapeXML v) = 0.
Proof. intros H. destruct v; [now apply count_char_encode | reflexivity]. Qed.

Lemma count_char_item (c : ascii) (p : Product) :
  is_markup c = true -> count_char c (item p) = count_char c item_frame.
Proof.
  intros H. unfold item, item_frame, price_text.
  rewrite !count_char_append, !(count_char_escapeXML c _ H). lia.
Qed.

Lemma count_char_forEach (c : ascii) (ps : list Product) :
  is_markup c = true ->
  count_char c (forEach ps) = length ps * count_char c item_frame.
Proof.
  intros H. induction ps as [|p ps IH]; [reflexivity|].
  simpl forEach. rewrite count_char_append, (count_char_item c p H), IH. simpl. lia.
Qed.

(** X4: the characters that open or close a tag or an attribute value
    reach the page from the template alone: whatever the rows and the URL
    hold, the page has as many of each as the frame of the template plus
    as many as the text of the loop body for each row; what [<%= %>]
    prints holds none. *)
Theorem markup_comes_from_the_template (l : Locals) (c : ascii) :
  is_markup c = true ->
  count_char c (index_ejs l)
    = count_char c page_frame + length (products l) * count_char c item_frame /\
  forall v, count_char c (escapeXML v) = 0.
Proof.
  intros H. split; [|intros v; now apply count_char_escapeXML].
  unfold index_ejs, page_frame.
  rewrite !count_char_append, (count_char_escapeXML c _ H), (count_char_forEach c _ H).
  lia.
Qed.

Lemma markup_comes_from_the_template_witness :
  count_char "<"
    (index_ejs {| products := [ {| id := 7; name := "<script>alert(1)</script>";
                                   description := Some "</li><li>";
                                   price := Some "1.00" |} ];
                  bannerUrl := "x onerror=alert(1)" |})
  = count_char "<" page_frame + 1 * count_char "<" item_frame.
Proof.
  apply (markup_comes_from_the_template
           {| products := [ {| id := 7; name := "<script>alert(1)</script>";
                               description := Some "</li><li>";
                               price := Some "1.00" |} ];
              bannerUrl := "x onerror=alert(1)" |} "<").
  reflexivity.
Defined.

Lemma length_append (a b : string) :
  String.length (a +:+ b) = String.length a + String.length b.
Proof.
  induction a as [|x a IH]; [reflexivity|].
  rewrite append_cons. simpl. now rewrite IH.
Qed.

Lemma encode_char_plain (x : ascii) :
  is_special x = false -> encode_char x = String x EmptyString.
Proof.
  unfold is_special, is_markup, encode_char. intros H.
  destruct (Ascii.eqb x "&"); [discriminate H|].
  destruct (Ascii.eqb x "<"); [discriminate H|].
  destruct (Ascii.eqb x ">"); [discriminate H|].
  destruct (Ascii.eqb x "034"); [discriminate H|].
  destruct (Ascii.eqb x "'"); [discriminate H|]. reflexivity.
Qed.

Lemma encode_char_special (x : ascii) :
  is_special x = true -> 4 <= String.length (encode_char x).
Proof.
  unfold is_special, is_markup, encode_char. intros H.
  destruct (Ascii.eqb x "&"); [simpl; lia|].
  destruct (Ascii.eqb x "<"); [simpl; lia|].
  destruct (Ascii.eqb x ">"); [simpl; lia|].
  destruct (Ascii.eqb x "034"); [simpl; lia|].
  destruct (Ascii.eqb x "'"); [simpl; lia|]. discriminate H.
Qed.

Lemma length_encode_char (x : ascii) : 1 <= String.length (encode_char x).
Proof.
  destruct (is_special x) eqn:H.
  - pose proof (encode_char_special x H). lia.
  - now rewrite (encode_char_plain x H).
Qed.

Lemma length_encode (s : string) : String.length s <= String.length (encode s).
Proof.
  induction s as [|x s IH]; [reflexivity|].
  simpl encode. rewrite length_append. pose proof (length_encode_char x). simpl. lia.
Qed.

Lemma encode_no_special (s : string) : no_special s = true -> encode s = s.
Proof.
  induction s as [|x s IH]; [reflexivity|]. simpl.
  intros H. apply andb_prop in H as [Hx Hs]. apply negb_true_iff in Hx.
  now rewrite (encode_char_plain x Hx), (IH Hs).
Qed.

Lemma same_length_no_special (s : string) :
  String.length (encode s) = String.length s -> no_special s = true.
Proof.
  induction s as [|x s IH]; [reflexivity|].
  simpl encode. rewrite length_append. simpl. intros H.
  pose proof (length_encode s) as Hs.
  destruct (is_special x) eqn:Hx.
  - pose proof (encode_char_special x Hx). lia.
  - rewrite (encode_char_plain x Hx) in H. simpl in H.
    rewrite IH by lia. reflexivity.
Qed.

(** X5: [<%= %>] prints a text as it is stored exactly when the text
    holds none of the five characters it encodes (the ampersand, the two
    angle brackets, the two quotes); otherwise what it prints is longer
    than the text. *)
Theorem plain_text_printed_as_stored (s : string) :
  (escapeXML (Some s) = s <-> no_special s = true) /\
  (no_special s = false -> String.length s < String.length (escapeXML (Some s))).
Proof.
  simpl escapeXML. split; [split|].
  - intros H. apply same_length_no_special. now rewrite H.
  - apply encode_no_special.
  - intros H. pose proof (length_encode s) as Hle.
    destruct (Nat.eq_dec (String.length (encode s)) (String.length s)) as [He|He].
    + rewrite (same_length_no_special s He) in H. discriminate.
    + lia.
Qed.

Lemma plain_text_printed_as_stored_witness :
  escapeXML (Some "Description of Product 1") = "Description of Product 1" /\
  String.length "Fish & Chips" < String.length (escapeXML (Some "Fish & Chips")).
Proof.
  split.
  - apply (plain_text_printed_as_stored "Description of Product 1"). reflexivity.
  - apply (plain_text_printed_as_stored "Fish & Chips"). reflexivity.
Defined.

Lemma append_empty (r : string) : EmptyString +:+ r = r.
Proof. reflexivity. Qed.

(** The encodings of two characters do not run into one another. *)
Lemma encode_char_head (x y : ascii) (r r' : string) :
  encode_char x +:+ r = encode_char y +:+ r' -> x = y /\ r = r'.
Proof.
  unfold encode_char.
  destruct (Ascii.eqb_spec x "&") as [->|Hx1];
    [|destruct (Ascii.eqb_spec x "<") as [->|Hx2];
      [|destruct (Ascii.eqb_spec x ">") as [->|Hx3];
        [|destruct (Ascii.eqb_spec x "034") as [->|Hx4];
          [|destruct (Ascii.eqb_spec x "'") as [->|Hx5]]]]];
  (destruct (Ascii.eqb_spec y "&") as [->|Hy1];
    [|destruct (Ascii.eqb_spec y "<") as [->|Hy2];
      [|destruct (Ascii.eqb_spec y ">") as [->|Hy3];
        [|destruct (Ascii.eqb_spec y "034") as [->|Hy4];
          [|destruct (Ascii.eqb_spec y "'") as [->|Hy5]]]]]);
  rewrite ?append_cons, ?append_empty; intros H;
  try (injection H as ?; subst; split; congruence);
  try (exfalso; congruence).
Qed.

Lemma encode_injective (a b : string) : encode a = encode b -> a = b.
Proof.
  revert b. induction a as [|x a IH]; intros [|y b] H.
  - reflexivity.
  - exfalso. simpl in H. pose proof (length_encode_char y) as Hy.
    apply (f_equal String.length) in H. rewrite length_append in H. simpl in H. lia.
  - exfalso. simpl in H. pose proof (length_encode_char x) as Hx.
    apply (f_equal String.length) in H. rewrite length_append in H. simpl in H. lia.
  - simpl in H. apply encode_char_head in H as [-> H]. now rewrite (IH b H).
Qed.

Lemma append_cancel_l (a x y : string) : a +:+ x = a +:+ y -> x = y.
Proof.
  induction a as [|c a IH]; [auto|].
  rewrite !append_cons. intros H. injection H as H. auto.
Qed.

(** Two texts without an opening bracket, each followed by one, are cut
    at the same place. *)
Lemma split_at_bracket (x y r r' : string) :
  count_char "<" x = 0 -> count_char "<" y = 0 ->
  x +:+ String "<" r = y +:+ String "<" r' -> x = y /\ r = r'.
Proof.
  revert y. induction x as [|a x IH]; intros [|b y] Hx Hy H.
  - rewrite !append_empty in H. injection H as H. auto.
  - rewrite append_empty, append_cons in H. injection H as <- _.
    simpl in Hy. discriminate Hy.
  - rewrite append_empty, append_cons in H. injection H as -> _.
    simpl in Hx. discriminate Hx.
  - rewrite !append_cons in H. injection H as -> H.
    simpl in Hx, Hy. destruct (Ascii.eqb b "<"); [discriminate Hx|].
    destruct (IH y Hx Hy H) as [-> ->]. auto.
Qed.

Lemma escapeXML_text_of (v : option string) : escapeXML v = encode (text_of v).
Proof. destruct v; reflexivity. Qed.

Lemma escapeXML_no_bracket (v : option string) : count_char "<" (escapeXML v) = 0.
Proof. now apply count_char_escapeXML. Qed.

(** X11: an entry of the page determines what it was printed from: two
    rows print the same entry exactly when they have the same name and
    their descriptions and their prices have the same text, a NULL
    counting as the empty text.  The id of a row is not printed. *)
Theorem entry_determines_row (p q : Product) :
  item p = item q <->
  name p = name q /\
  text_of (description p) = text_of (description q) /\
  text_of (price p) = text_of (price q).
Proof.
  split.
  - unfold item, price_text. intros H.
    apply append_cancel_l in H.
    change (item_to_description +:+ ?r)
      with (String "<" (("/h3>" +:+ nl +:+ spaces 20 +:+ "<p>") +:+ r)) in H.
    apply split_at_bracket in H as [Hn H]; try apply escapeXML_no_bracket.
    apply append_cancel_l in H.
    change (item_to_price +:+ ?r)
      with (String "<" (("/p>" +:+ nl +:+ spaces 20 +:+ "<p>Price: $") +:+ r)) in H.
    apply split_at_bracket in H as [Hd H]; try apply escapeXML_no_bracket.
    apply append_cancel_l in H.
    change item_close
      with (String "<" ("/p>" +:+ nl +:+ ln 16 "</li>" +:+ spaces 12)) in H.
    apply split_at_bracket in H as [Hp _]; try apply escapeXML_no_bracket.
    rewrite !escapeXML_text_of in *.
    apply encode_injective in Hn, Hd, Hp. simpl in Hn. auto.
  - intros (Hn & Hd & Hp). unfold item, price_text.
    rewrite !escapeXML_text_of, Hd, Hp. simpl. now rewrite Hn.
Qed.

Lemma entry_determines_row_witness :
  item {| id := 1; name := "Tea"; description := None; price := Some "2.50" |}
  = item {| id := 2; name := "Tea"; description := Some ""; price := Some "2.50" |}.
Proof.
  apply (entry_determines_row
           {| id := 1; name := "Tea"; description := None; price := Some "2.50" |}
           {| id := 2; name := "Tea"; description := Some ""; price := Some "2.50" |}).
  repeat split.
Defined.

(** Two texts without the character [c], each followed by it, are cut at
    the same place. *)
Lemma split_at_markup (c : ascii) (x y r r' : string) :
  count_char c x = 0 -> count_char c y = 0 ->
  x +:+ String c r = y +:+ String c r' -> x = y /\ r = r'.
Proof.
  revert y. induction x as [|a x IH]; intros [|b y] Hx Hy H.
  - rewrite !append_empty in H. injection H as H. auto.
  - rewrite append_empty, append_cons in H. injection H as <- _.
    simpl in Hy. rewrite Ascii.eqb_refl in Hy. discriminate Hy.
  - rewrite append_empty, append_cons in H. injection H as -> _.
    simpl in Hx. rewrite Ascii.eqb_refl in Hx. discriminate Hx.
  - rewrite !append_cons in H. injection H as -> H.
    simpl in Hx, Hy. destruct (Ascii.eqb b c); [discriminate Hx|].
    destruct (IH y Hx Hy H) as [-> ->]. auto.
Qed.

(** An entry ends where its text ends, whatever follows it. *)
Lemma item_then (p q : Product) (r r' : string) :
  item p +:+ r = item q +:+ r' -> item p = item q /\ r = r'.
Proof.
  unfold item, price_text. rewrite !append_assoc. intros H.
  apply append_cancel_l in H.
  change (item_to_description +:+ ?z)
    with (String "<" (("/h3>" +:+ nl +:+ spaces 20 +:+ "<p>") +:+ z)) in H.
  apply split_at_bracket in H as [Hn H]; try apply escapeXML_no_bracket.
  apply append_cancel_l in H.
  change (item_to_price +:+ ?z)
    with (String "<" (("/p>" +:+ nl +:+ spaces 20 +:+ "<p>Price: $") +:+ z)) in H.
  apply split_at_bracket in H as [Hd H]; try apply escapeXML_no_bracket.
  apply append_cancel_l in H.
  change (item_close +:+ ?z)
    with (String "<" (("/p>" +:+ nl +:+ ln 16 "</li>" +:+ spaces 12) +:+ z)) in H.
  apply split_at_bracket in H as [Hp H]; try apply escapeXML_no_bracket.
  apply append_cancel_l in H.
  rewrite Hn, Hd, Hp. auto.
Qed.

Lemma bottom_is_no_entry (r : string) : page_bottom <> item_to_name +:+ r.
Proof.
  unfold page_bottom, item_to_name. rewrite !append_cons. intros H. discriminate H.
Qed.

(** The entries of a list are read back one by one. *)
Lemma forEach_then (ps qs : list Product) :
  forEach ps +:+ page_bottom = forEach qs +:+ page_bottom ->
  Forall2 (fun p q => item p = item q) ps qs.
Proof.
  revert qs. induction ps as [|p ps IH]; intros [|q qs] H.
  - constructor.
  - exfalso. simpl forEach in H. rewrite append_empty, append_assoc in H.
    unfold item in H. rewrite append_assoc in H.
    now apply bottom_is_no_entry in H.
  - exfalso. simpl forEach in H. rewrite append_empty, append_assoc in H.
    unfold item in H. rewrite append_assoc in H.
    symmetry in H. now apply bottom_is_no_entry in H.
  - simpl forEach in H. rewrite !append_assoc in H.
    apply item_then in H as [Hi H]. constructor; auto.
Qed.

Lemma forEach_same (ps qs : list Product) :
  Forall2 (fun p q => item p = item q) ps qs -> forEach ps = forEach qs.
Proof.
  induction 1 as [|p q ps qs Hi _ IH]; [reflexivity|].
  simpl. now rewrite Hi, IH.
Qed.

(** X12: the page determines what it was rendered from: two renderings
    are the same page exactly when the banner URLs are the same and the
    rows, taken in order, print the same entries; so two result sets of
    different length never give the same page. *)
Theorem page_determines_rows (l l' : Locals) :
  (index_ejs l = index_ejs l' <->
   bannerUrl l = bannerUrl l' /\
   Forall2 (fun p q => item p = item q) (products l) (products l')) /\
  (index_ejs l = index_ejs l' -> length (products l) = length (products l')).
Proof.
  assert (Hfwd : index_ejs l = index_ejs l' ->
                 bannerUrl l = bannerUrl l' /\
                 Forall2 (fun p q => item p = item q) (products l) (products l')).
  { unfold index_ejs. intros H.
    apply append_cancel_l in H.
    change (page_list_open +:+ ?z)
      with (String "034"
              ((" alt=" +:+ dq +:+ "Banner Image" +:+ dq +:+ " style=" +:+ dq
                +:+ "width: 100%; max-height: 300px;" +:+ dq +:+ ">" +:+ nl +:+
                ln 4 "</header>" +:+ ln 4 "<main>" +:+ ln 8 "<h2>Product List</h2>" +:+
                ln 8 "<ul>" +:+ spaces 12) +:+ z)) in H.
    apply split_at_markup in H as [Hu H];
      try (apply count_char_escapeXML; reflexivity).
    apply append_cancel_l in H. simpl in Hu.
    split; [now apply encode_injective | now apply forEach_then]. }
  split; [split; [exact Hfwd|]|].
  - intros [Hu Hf]. unfold index_ejs. now rewrite Hu, (forEach_same _ _ Hf).
  - intros H. destruct (Hfwd H) as [_ Hf].
    clear H Hfwd. induction Hf; simpl; auto.
Qed.

Lemma page_determines_rows_witness :
  index_ejs {| products := sample_rows; bannerUrl := sample_url 1 |}
  <> index_ejs {| products := [unpriced_row]; bannerUrl := sample_url 1 |}.
Proof.
  intros H.
  apply (page_determines_rows {| products := sample_rows; bannerUrl := sample_url 1 |}
           {| products := [unpriced_row]; bannerUrl := sample_url 1 |}) in H.
  discriminate H.
Defined.

(** ** Shutdown *)

Module LoopFacts.
Import Loop.

#[local] Arguments executing : simpl never.

Lemma boot_complete (env : gmap string string) :
  incomplete env Database = false ->
  incomplete env ObjectStore = false ->
  boot env =
  {| pool_closed := false; busy := 0; db_pending := []; s3_pending := [];
     end_pending := [];
     on_signal := [(SIGINT, on_sigint)];
     on_get := [("/", get_root env (s3_config env))];
     listening := Some 3000; exited := None;
     out := [Did (createPool (db_config env));
             Did (new_S3Client (s3_config env));
             Did (app_use "/static" "public");
             Did (app_set "view engine" "ejs");
             Routed "/" (get_root env (s3_config env));
             Bound 3000;
             Hooked SIGINT on_sigint;
             Did (console_log "App running at http://localhost:3000")] |}.
Proof.
  intros H1 H2. unfold boot. rewrite main_checks, H1, H2. reflexivity.
Qed.

(** The limit of the pool is the [connectionLimit] the script creates it
    with. *)
Lemma pool_limit_configured (env : gmap string string) :
  connectionLimit (db_config env) = pool_limit.
Proof. reflexivity. Qed.

Lemma Forall_remove_nth {A} (P : A -> Prop) (n : nat) (l : list A) :
  Forall P l -> Forall P (remove_nth n l).
Proof.
  intros H. revert n. induction H as [|x l Hx Hl IH]; intros [|n]; simpl.
  - constructor.
  - constructor.
  - exact Hl.
  - constructor; [exact Hx | apply IH].
Qed.

Lemma Forall_nth_error {A} (P : A -> Prop) (n : nat) (l : list A) (x : A) :
  Forall P l -> nth_error l n = Some x -> P x.
Proof.
  intros H Hn. apply nth_error_In in Hn.
  rewrite List.Forall_forall in H. now apply H.
Qed.

Lemma length_remove_nth {A} (n : nat) (l : list A) (x : A) :
  nth_error l n = Some x -> length l = S (length (remove_nth n l)).
Proof.
  revert n. induction l as [|y l IH]; intros [|n] H; simpl in *; try discriminate.
  - reflexivity.
  - now rewrite (IH n H).
Qed.

Lemma Inv_boot (env : gmap string string) :
  incomplete env Database = false ->
  incomplete env ObjectStore = false ->
  Inv env (boot env).
Proof.
  intros H1 H2. rewrite (boot_complete env H1 H2).
  constructor; simpl; auto.
Qed.

(** Take the invariant and the state apart. *)
Ltac open_state HI st :=
  destruct HI as [Hsig Hget Hdb Hs3 Hend];
  destruct st as [pc bz dbp s3p endp sigs gets lis ex o];
  simpl in Hsig, Hget, Hdb, Hs3, Hend; subst sigs gets.

(** Split a turn into its cases: what the input is, whether it finds its
    route, its query or its signing, whether the pool is ended and whether
    the connection that returns was the last one busy.  The callbacks
    parked in the pool and on the promises are those the invariant says
    they are. *)
Ltac crack :=
  unfold step, alive, returned_to_ended_pool, quit in *;
  repeat first
    [ progress (simpl in *)
    | match goal with
      | Hn : nth_error ?l ?n = Some (_, ?cb),
        Hdb : Forall (fun q => snd q = _) ?l |- _ =>
          is_var cb;
          let H := fresh "Hcb" in
          pose proof (Forall_nth_error _ n l _ Hdb Hn) as H; simpl in H; subst cb
      | Hn : nth_error ?l ?n = Some (_, ?k),
        Hs3 : Forall (fun s => exists results, snd s = _) ?l |- _ =>
          is_var k;
          let H := fresh "Hk" in
          pose proof (Forall_nth_error _ n l _ Hs3 Hn) as [? H]; simpl in H; subst k
      | Hn : nth_error ?l ?n = Some _ |- _ =>
          lazymatch goal with
          | _ : length l = S (length (remove_nth n l)) |- _ => fail
          | _ => pose proof (length_remove_nth n l _ Hn)
          end
      | Hend : Forall (fun x => x = on_pool_closed) (?cb :: _) |- _ =>
          is_var cb;
          let H := fresh "Hcb" in
          pose proof (Forall_inv Hend) as H; simpl in H; subst cb
      | H : Some _ = Some ?p |- _ => is_var p; injection H as <-
      | H : Some _ = None |- _ => discriminate H
      | H : None = Some _ |- _ => discriminate H
      | H : true = false |- _ => discriminate H
      | H : false = true |- _ => discriminate H
      | |- context [on_query_result _ _ ?r] => is_var r; destruct r
      | |- context [on_signed_url _ ?r] => is_var r; destruct r
      | H : context [on_query_result _ _ ?r] |- _ => is_var r; destruct r
      | H : context [on_signed_url _ ?r] |- _ => is_var r; destruct r
      | |- context [match ?x with _ => _ end] => is_var x; destruct x
      | |- context [match ?x with _ => _ end] => destruct x eqn:?
      | H : context [match ?x with _ => _ end] |- _ => is_var x; destruct x
      | H : context [match ?x with _ => _ end] |- _ => destruct x eqn:?
      end ].

(** Write the state after a turn out in full. *)
Ltac records :=
  cbv [emit set_exited set_db_pending set_s3_pending pool_end close_pool
       one_less_busy set_end_pending executing PoolSound
       pool_closed busy db_pending s3_pending end_pending on_signal on_get
       listening exited out] in *.

(** Comparisons of the turn, for [lia]. *)
Ltac counts :=
  records;
  repeat match goal with
    | H : (_ =? _)%nat = true |- _ => apply Nat.eqb_eq in H
    | H : (_ =? _)%nat = false |- _ => apply Nat.eqb_neq in H
    | H : (_ <? _)%nat = true |- _ => apply Nat.ltb_lt in H
    | H : (_ <? _)%nat = false |- _ => apply Nat.ltb_ge in H
    end.

(** The state after a turn, its log as one append. *)
Ltac flat := records; rewrite <- ?app_assoc; simpl.

(** Every turn keeps the invariant. *)
Lemma Inv_step (env : gmap string string) (i : Input) (st : Proc) :
  Inv env st -> Inv env (step i st).
Proof.
  intros HI. open_state HI st. crack.
  all: constructor; simpl; auto using Forall_remove_nth.
  all: try (apply Forall_app; split; auto using Forall_remove_nth).
  all: try (constructor; [|constructor]; eauto).
  all: try (eapply Forall_inv_tail; eassumption).
Qed.

Lemma Inv_run (env : gmap string string) (ins : list Input) (st : Proc) :
  Inv env st -> Inv env (run ins st).
Proof.
  revert st. induction ins as [|i ins IH]; intros st H; [exact H|].
  apply IH, Inv_step, H.
Qed.

(** The two semantics agree on a request: served by the loop on an open
    pool, with its query and its signing returning [r] and [s], it does
    what [exec] does in the world that answers [r] and [s]. *)
Lemma loop_agrees_with_exec (env : gmap string string) (st : Proc)
    (r : QueryResult) (s : SignResult) (t : nat) :
  Inv env st -> alive st = true -> listening st <> None ->
  pool_closed st = false -> db_pending st = [] -> s3_pending st = [] ->
  out (run [Request "/"; QueryDone 0 r; SignDone 0 s] st) =
  (out st ++
   map snd (exec {| mysql_query := fun _ _ => r; presigner := fun _ _ _ _ => s |} t
              (get_root env (s3_config env))))%list.
Proof.
  intros [Hsig Hget Hdb Hs3 Hend] Hal Hl Hpc Hd Hs.
  destruct st as [pc bz dbp s3p endp sigs gets lis ex o]; simpl in *; subst.
  unfold run, step, alive in *; simpl in *.
  destruct ex; [discriminate Hal|].
  destruct lis; [|congruence].
  destruct r as [err|results]; simpl.
  - now rewrite <- !app_assoc.
  - destruct s as [err|url]; simpl; now rewrite <- !app_assoc.
Qed.

(** Once [end] has closed the pool it stays closed. *)
Lemma closed_step (env : gmap string string) (i : Input) (st : Proc) :
  Inv env st -> pool_closed st = true -> pool_closed (step i st) = true.
Proof.
  intros HI Hpc. open_state HI st. simpl in Hpc. subst pc. crack; reflexivity.
Qed.

Lemma closed_run (env : gmap string string) (ins : list Input) (st : Proc) :
  Inv env st -> pool_closed st = true -> pool_closed (run ins st) = true.
Proof.
  revert st. induction ins as [|i ins IH]; intros st H Hpc; [exact Hpc|].
  apply IH; [apply Inv_step, H | apply (closed_step env), Hpc; exact H].
Qed.


(** The pool of a running process is sound. *)
Lemma sound_step (env : gmap string string) (i : Input) (st : Proc) :
  Inv env st -> PoolSound st -> alive (step i st) = true -> PoolSound (step i st).
Proof.
  intros HI HP Hal. open_state HI st. unfold PoolSound in HP. simpl in HP.
  destruct pc; [destruct HP as [-> HP]|subst endp];
    crack; try discriminate; counts; try (split; [reflexivity|]);
    try reflexivity; lia.
Qed.

Lemma dead_step (i : Input) (st : Proc) : alive st = false -> step i st = st.
Proof. intros H. unfold step. now rewrite H. Qed.

Lemma dead_run (ins : list Input) (st : Proc) : alive st = false -> run ins st = st.
Proof.
  revert st. induction ins as [|i ins IH]; intros st H; [reflexivity|].
  change (run (i :: ins) st) with (run ins (step i st)).
  rewrite (dead_step i st H). now apply IH.
Qed.

Lemma run_snoc (ins : list Input) (i : Input) (st : Proc) :
  run (ins ++ [i])%list st = step i (run ins st).
Proof. unfold run. now rewrite fold_left_app. Qed.


Lemma alive_before_step (i : Input) (st : Proc) :
  alive (step i st) = true -> alive st = true.
Proof.
  intros H. destruct (alive st) eqn:Ha; [reflexivity|].
  rewrite (dead_step i st Ha) in H. congruence.
Qed.

Lemma alive_before_run (ins : list Input) (st : Proc) :
  alive (run ins st) = true -> alive st = true.
Proof.
  intros H. destruct (alive st) eqn:Ha; [reflexivity|].
  rewrite (dead_run ins st Ha) in H. congruence.
Qed.

Lemma sound_run (env : gmap string string) (ins : list Input) (st : Proc) :
  Inv env st -> PoolSound st -> alive (run ins st) = true -> PoolSound (run ins st).
Proof.
  intros HI HP. induction ins as [|i ins IH] using rev_ind; [auto|].
  rewrite run_snoc. intros Hal.
  apply (sound_step env); [now apply Inv_run | | exact Hal].
  apply IH. now apply (alive_before_step i).
Qed.

Lemma sound_booted (env : gmap string string) (ins : list Input) :
  incomplete env Database = false ->
  incomplete env ObjectStore = false ->
  alive (run ins (boot env)) = true -> PoolSound (run ins (boot env)).
Proof.
  intros H1 H2. apply (sound_run env); [now apply Inv_boot|].
  rewrite (boot_complete env H1 H2). reflexivity.
Qed.






(** The last query executing on an ended pool returns.  If it returns
    rows, the callback of [end] runs first and ends the process: the
    callback of the query is never called.  If it returns an error, the
    callback of the query answers the request, and then the callback of
    [end] ends the process. *)
Lemma last_return_step (env : gmap string string) (st : Proc) :
  Inv env st -> alive st = true -> pool_closed st = true -> PoolSound st ->
  busy st = 1 ->
  (forall results,
     exited (step (QueryDone 0 (inr results)) st) = Some 0 /\
     s3_pending (step (QueryDone 0 (inr results)) st) = s3_pending st /\
     out (step (QueryDone 0 (inr results)) st)
       = (out st ++ [Did (console_log "MySQL connections closed"); Exit 0])%list) /\
  (forall err,
     exited (step (QueryDone 0 (inl err)) st) = Some 0 /\
     s3_pending (step (QueryDone 0 (inl err)) st) = s3_pending st /\
     exists sql,
       out (step (QueryDone 0 (inl err)) st)
       = (out st ++ [Queried sql (inl err);
                    Did (console_error "Error fetching data from database:" (Some err));
                    Did (res_status 500);
                    Did (res_send "Database error");
                    Did (console_log "MySQL connections closed"); Exit 0])%list).
Proof.
  intros HI Hal Hpc HP Hb. open_state HI st. unfold PoolSound in HP.
  simpl in HP, Hal, Hpc, Hb. subst pc bz. destruct HP as [-> HP].
  destruct dbp as [|[sql cb] dbp]; [simpl in HP; lia|].
  inversion Hdb as [|? ? Hcb Hdb']; simpl in Hcb; subst.
  unfold step, alive in *; simpl in *.
  destruct ex; [discriminate Hal|]. unfold executing. simpl.
  split.
  - intros results. repeat split. now rewrite <- !app_assoc.
  - intros err. split; [reflexivity|]. split; [reflexivity|].
    exists sql. now rewrite <- !app_assoc.
Qed.






(** *** The process at large *)

Lemma boot_database_incomplete (env : gmap string string) :
  incomplete env Database = true ->
  boot env =
  {| pool_closed := false; busy := 0; db_pending := []; s3_pending := [];
     end_pending := [];
     on_signal := []; on_get := []; listening := None; exited := Some 1;
     out := [Did (createPool (db_config env));
             Did (console_error (diagnostic Database) None);
             Exit 1] |}.
Proof. intros H. unfold boot. rewrite main_checks, H. reflexivity. Qed.

Lemma boot_object_store_incomplete (env : gmap string string) :
  incomplete env Database = false ->
  incomplete env ObjectStore = true ->
  boot env =
  {| pool_closed := false; busy := 0; db_pending := []; s3_pending := [];
     end_pending := [];
     on_signal := []; on_get := []; listening := None; exited := Some 1;
     out := [Did (createPool (db_config env));
             Did (console_error (diagnostic ObjectStore) None);
             Exit 1] |}.
Proof. intros H1 H2. unfold boot. rewrite main_checks, H1, H2. reflexivity. Qed.

Lemma listening_step (env : gmap string string) (i : Input) (st : Proc) :
  Inv env st -> listening (step i st) = listening st.
Proof. intros HI. open_state HI st. crack; reflexivity. Qed.

Lemma listening_run (env : gmap string string) (ins : list Input) (st : Proc) :
  Inv env st -> listening (run ins st) = listening st.
Proof.
  revert st. induction ins as [|i ins IH]; intros st H; [reflexivity|].
  change (run (i :: ins) st) with (run ins (step i st)).
  rewrite (IH _ (Inv_step env i st H)). now apply (listening_step env).
Qed.

Lemma listening_booted (env : gmap string string) (ins : list Input) :
  incomplete env Database = false ->
  incomplete env ObjectStore = false ->
  listening (run ins (boot env)) = Some 3000.
Proof.
  intros H1 H2. rewrite (listening_run env ins _ (Inv_boot env H1 H2)).
  now rewrite (boot_complete env H1 H2).
Qed.

(** What one turn does to the counts, if the process is running after
    it. *)
Lemma step_accounting (env : gmap string string) (i : Input) (st : Proc) :
  Inv env st -> alive (step i st) = true -> listening st <> None ->
  answered (step i st) + length (db_pending (step i st))
    + length (s3_pending (step i st))
  = answered st + length (db_pending st) + length (s3_pending st)
    + (if is_root_request i then 1 else 0).
Proof.
  intros HI Hal Hl. open_state HI st. unfold answered in *. simpl in Hl.
  destruct lis as [p|]; [clear Hl|congruence].
  crack; try discriminate;
    rewrite ?List.filter_app, ?List.length_app; simpl; lia.
Qed.

(** X7: as long as the process is running, every request for the route
    that came in is accounted for once: it has been answered, or its query
    is pending, or its signing is awaited.  No request is answered twice
    and none is dropped, whatever the order in which queries and signings
    return. *)
Theorem requests_accounted_for (env : gmap string string) (ins : list Input) :
  incomplete env Database = false ->
  incomplete env ObjectStore = false ->
  alive (run ins (boot env)) = true ->
  answered (run ins (boot env)) + length (db_pending (run ins (boot env)))
    + length (s3_pending (run ins (boot env)))
  = accepted ins.
Proof.
  intros H1 H2. induction ins as [|i ins IH] using rev_ind; intros Hal.
  - rewrite (boot_complete env H1 H2). reflexivity.
  - rewrite run_snoc in *.
    pose proof (alive_before_step _ _ Hal) as Hal'.
    rewrite (step_accounting env i (run ins (boot env))).
    + rewrite (IH Hal'). unfold accepted.
      rewrite List.filter_app, List.length_app. simpl.
      destruct (is_root_request i); simpl; lia.
    + apply Inv_run, Inv_boot; assumption.
    + exact Hal.
    + rewrite (listening_booted env ins H1 H2). discriminate.
Qed.

Lemma requests_accounted_for_witness :
  answered (run [Request "/"; Request "/"; QueryDone 1 (inl sample_error); Request "/";
                 QueryDone 0 (inr sample_rows)] (boot full_env))
  + length (db_pending
              (run [Request "/"; Request "/"; QueryDone 1 (inl sample_error); Request "/";
                    QueryDone 0 (inr sample_rows)] (boot full_env)))
  + length (s3_pending
              (run [Request "/"; Request "/"; QueryDone 1 (inl sample_error); Request "/";
                    QueryDone 0 (inr sample_rows)] (boot full_env)))
  = 3.
Proof.
  apply (requests_accounted_for full_env
           [Request "/"; Request "/"; QueryDone 1 (inl sample_error); Request "/";
            QueryDone 0 (inr sample_rows)]); vm_compute; reflexivity.
Defined.

(** A turn that is not a signal leaves a running process with an open
    pool running, with its pool open. *)
Lemma quiet_step (env : gmap string string) (i : Input) (st : Proc) :
  Inv env st -> alive st = true -> pool_closed st = false -> end_pending st = [] ->
  (forall s, i <> Sig s) ->
  alive (step i st) = true /\ pool_closed (step i st) = false /\
  end_pending (step i st) = [].
Proof.
  intros HI Hal Hpc He Hi. open_state HI st. simpl in Hal, Hpc, He. subst pc endp.
  destruct i as [path|n r|n r|s]; [| | |exfalso; now apply (Hi s)];
    clear Hi; crack; try discriminate; auto.
Qed.

(** X6: nothing a query or a signing returns stops the server: as long as
    no signal arrives a booted process keeps running, with its pool open
    and its port bound, and the next request for the route has its query
    checked out like the first. *)
Theorem failures_do_not_stop_the_server (env : gmap string string) (ins : list Input) :
  incomplete env Database = false ->
  incomplete env ObjectStore = false ->
  (forall s, ~ In (Sig s) ins) ->
  alive (run ins (boot env)) = true /\
  pool_closed (run ins (boot env)) = false /\
  listening (run ins (boot env)) = Some 3000 /\
  db_pending (step (Request "/") (run ins (boot env)))
  = (db_pending (run ins (boot env))
     ++ [("SELECT * FROM products", on_query_result env (s3_config env))])%list.
Proof.
  intros H1 H2 Hs.
  assert (Hq : alive (run ins (boot env)) = true /\
               pool_closed (run ins (boot env)) = false /\
               end_pending (run ins (boot env)) = []).
  { induction ins as [|i ins IH] using rev_ind.
    - rewrite (boot_complete env H1 H2). auto.
    - rewrite run_snoc.
      destruct IH as (Ha & Hp & He).
      { intros s Hin. apply (Hs s), in_or_app. now left. }
      apply (quiet_step env); auto.
      + apply Inv_run, Inv_boot; assumption.
      + intros s ->. apply (Hs s), in_or_app. right. now left. }
  destruct Hq as (Ha & Hp & _).
  pose proof (listening_booted env ins H1 H2) as Hl.
  assert (HI : Inv env (run ins (boot env))) by (apply Inv_run, Inv_boot; assumption).
  repeat split; auto.
  destruct HI as [Hsig Hget Hdb Hs3 Hend].
  destruct (run ins (boot env)) as [pc bz dbp s3p endp sigs gets lis ex o];
    simpl in *; subst sigs gets pc lis.
  unfold step, alive in *; simpl in *.
  destruct ex; [discriminate Ha|]. reflexivity.
Qed.

Lemma failures_do_not_stop_the_server_witness :
  alive (run [Request "/"; QueryDone 0 (inl sample_error); Request "/";
              QueryDone 0 (inr sample_rows); SignDone 0 (inl credentials_error)]
           (boot full_env)) = true.
Proof.
  apply (failures_do_not_stop_the_server full_env
           [Request "/"; QueryDone 0 (inl sample_error); Request "/";
            QueryDone 0 (inr sample_rows); SignDone 0 (inl credentials_error)]);
    try (vm_compute; reflexivity).
  intros s Hin. simpl in Hin.
  repeat (destruct Hin as [Hin|Hin]; [discriminate Hin|]). exact Hin.
Defined.

(** A request for the route on a closed pool: the whole turn. *)
Lemma request_on_closed_pool (env : gmap string string) (st : Proc) :
  Inv env st -> alive st = true -> listening st <> None -> pool_closed st = true ->
  out (step (Request "/") st) =
    (out st ++ [Queried "SELECT * FROM products" (inl pool_is_closed);
               Did (console_error "Error fetching data from database:"
                      (Some pool_is_closed));
               Did (res_status 500);
               Did (res_send "Database error")])%list /\
  db_pending (step (Request "/") st) = db_pending st /\
  s3_pending (step (Request "/") st) = s3_pending st /\
  alive (step (Request "/") st) = true.
Proof.
  intros [Hsig Hget Hdb Hs3 Hend] Hal Hl Hpc.
  destruct st as [pc bz dbp s3p endp sigs gets lis ex o]; simpl in *; subst sigs gets pc.
  unfold step, alive in *; simpl in *.
  destruct ex as [c|]; [discriminate Hal|].
  destruct lis as [n|]; [|congruence]. simpl.
  repeat split. now rewrite <- !app_assoc.
Qed.

(** The interrupt handler ends the pool, whether or not it was ended
    before. *)
Lemma sigint_closes (env : gmap string string) (st : Proc) :
  Inv env st -> alive st = true -> pool_closed (step (Sig SIGINT) st) = true.
Proof.
  intros HI Hal. open_state HI st. simpl in Hal. crack; try discriminate; reflexivity.
Qed.

(** X8: the interrupt handler does not close the HTTP server: between
    SIGINT and the exit a request for the route is still taken, and it is
    answered at once with 500 "Database error", the pool's refusal in the
    log; no query is checked out and nothing is signed for it. *)
Theorem requests_during_shutdown (env : gmap string string) (ins ins' : list Input) :
  incomplete env Database = false ->
  incomplete env ObjectStore = false ->
  alive (run ins' (step (Sig SIGINT) (run ins (boot env)))) = true ->
  out (step (Request "/") (run ins' (step (Sig SIGINT) (run ins (boot env))))) =
    (out (run ins' (step (Sig SIGINT) (run ins (boot env))))
     ++ [Queried "SELECT * FROM products" (inl pool_is_closed);
         Did (console_error "Error fetching data from database:" (Some pool_is_closed));
         Did (res_status 500);
         Did (res_send "Database error")])%list /\
  db_pending (step (Request "/") (run ins' (step (Sig SIGINT) (run ins (boot env)))))
    = db_pending (run ins' (step (Sig SIGINT) (run ins (boot env)))) /\
  s3_pending (step (Request "/") (run ins' (step (Sig SIGINT) (run ins (boot env)))))
    = s3_pending (run ins' (step (Sig SIGINT) (run ins (boot env)))) /\
  alive (step (Request "/") (run ins' (step (Sig SIGINT) (run ins (boot env))))) = true.
Proof.
  intros H1 H2 Hal.
  assert (HI : Inv env (run ins (boot env))) by (apply Inv_run, Inv_boot; assumption).
  assert (Hal1 := alive_before_run _ _ Hal).
  assert (Hal0 := alive_before_step _ _ Hal1).
  assert (Hpc := sigint_closes env _ HI Hal0).
  assert (HI1 := Inv_step env (Sig SIGINT) _ HI).
  apply (request_on_closed_pool env).
  - now apply Inv_run.
  - exact Hal.
  - rewrite (listening_run env ins' _ HI1), (listening_step env _ _ HI),
      (listening_booted env ins H1 H2). discriminate.
  - now apply (closed_run env).
Qed.

Lemma requests_during_shutdown_witness :
  alive (step (Request "/")
           (run [Request "/"] (step (Sig SIGINT) (run [Request "/"] (boot full_env)))))
  = true.
Proof.
  apply (requests_during_shutdown full_env [Request "/"] [Request "/"]);
    vm_compute; reflexivity.
Defined.

(** X9: the shutdown waits for the queries that are executing and for
    nothing else.  When SIGINT finds no query pending, and when the last
    query executing on an ended pool returns rows, the callback of [end]
    logs and exits with status 0 though signings are still awaited, in the
    second case before the callback of that query is called; the requests
    they belong to get no response, for nothing happens after the exit. *)
Theorem shutdown_drops_awaited_signings (env : gmap string string) (ins : list Input) :
  incomplete env Database = false ->
  incomplete env ObjectStore = false ->
  alive (run ins (boot env)) = true ->
  (pool_closed (run ins (boot env)) = false ->
   db_pending (run ins (boot env)) = [] ->
   exited (step (Sig SIGINT) (run ins (boot env))) = Some 0 /\
   s3_pending (step (Sig SIGINT) (run ins (boot env)))
     = s3_pending (run ins (boot env)) /\
   out (step (Sig SIGINT) (run ins (boot env)))
     = (out (run ins (boot env))
        ++ [Did (console_log "Shutting down server..."); PoolEnd;
            Did (console_log "MySQL connections closed"); Exit 0])%list /\
   (forall ins', run ins' (step (Sig SIGINT) (run ins (boot env)))
                 = step (Sig SIGINT) (run ins (boot env)))) /\
  (forall results,
   pool_closed (run ins (boot env)) = true ->
   busy (run ins (boot env)) = 1 ->
   exited (step (QueryDone 0 (inr results)) (run ins (boot env))) = Some 0 /\
   s3_pending (step (QueryDone 0 (inr results)) (run ins (boot env)))
     = s3_pending (run ins (boot env)) /\
   out (step (QueryDone 0 (inr results)) (run ins (boot env)))
     = (out (run ins (boot env))
        ++ [Did (console_log "MySQL connections closed"); Exit 0])%list /\
   (forall ins', run ins' (step (QueryDone 0 (inr results)) (run ins (boot env)))
                 = step (QueryDone 0 (inr results)) (run ins (boot env)))).
Proof.
  intros H1 H2 Hal.
  assert (HI : Inv env (run ins (boot env))) by (apply Inv_run, Inv_boot; assumption).
  assert (HP := sound_booted env ins H1 H2 Hal).
  split.
  - intros Hopen Hd.
    assert (Hx : exited (step (Sig SIGINT) (run ins (boot env))) = Some 0 /\
                 s3_pending (step (Sig SIGINT) (run ins (boot env)))
                   = s3_pending (run ins (boot env)) /\
                 out (step (Sig SIGINT) (run ins (boot env)))
                   = (out (run ins (boot env))
                      ++ [Did (console_log "Shutting down server..."); PoolEnd;
                          Did (console_log "MySQL connections closed"); Exit 0])%list).
    { open_state HI (run ins (boot env)). simpl in *. subst pc dbp.
      unfold step, alive in *; simpl in *.
      destruct ex; [discriminate Hal|]. unfold executing. simpl.
      repeat split. now rewrite <- !app_assoc. }
    destruct Hx as (Hex & Hs3' & Hout). repeat split; auto.
    intros ins'. apply dead_run. unfold alive. now rewrite Hex.
  - intros results Hpc Hb.
    destruct (last_return_step env _ HI Hal Hpc HP Hb) as (Hrows & _).
    destruct (Hrows results) as (Hex & Hs3' & Hout). repeat split; auto.
    intros ins'. apply dead_run. unfold alive. now rewrite Hex.
Qed.

Lemma shutdown_drops_awaited_signings_witness :
  exited (step (Sig SIGINT)
            (run [Request "/"; QueryDone 0 (inr sample_rows)] (boot full_env)))
  = Some 0 /\
  length (s3_pending
            (step (Sig SIGINT)
               (run [Request "/"; QueryDone 0 (inr sample_rows)] (boot full_env)))) = 1.
Proof.
  split; [|reflexivity].
  destruct (shutdown_drops_awaited_signings full_env
              [Request "/"; QueryDone 0 (inr sample_rows)]) as [H _];
    [vm_compute; reflexivity | vm_compute; reflexivity | vm_compute; reflexivity | ].
  apply H; vm_compute; reflexivity.
Defined.

(** What one turn does to the signings begun and to the queries that
    returned rows. *)
Lemma step_provenance (env : gmap string string) (i : Input) (st : Proc) :
  Inv env st ->
  length (List.filter rows_returned (out (step i st)))
    + (length (s3_pending st) + length (List.filter signing_returned (out st)))
  = length (s3_pending (step i st))
    + length (List.filter signing_returned (out (step i st)))
    + length (List.filter rows_returned (out st)).
Proof.
  intros HI. open_state HI st.
  crack; try discriminate;
    rewrite ?List.filter_app, ?List.length_app; simpl; lia.
Qed.

Lemma boot_cases (env : gmap string string) :
  (incomplete env Database = false /\ incomplete env ObjectStore = false) \/
  (alive (boot env) = false /\ s3_pending (boot env) = [] /\
   exists g, out (boot env) = [Did (createPool (db_config env));
                               Did (console_error (diagnostic g) None);
                               Exit 1]).
Proof.
  destruct (incomplete env Database) eqn:H1.
  - right. rewrite (boot_database_incomplete env H1). repeat split. now exists Database.
  - destruct (incomplete env ObjectStore) eqn:H2; [|now left].
    right. rewrite (boot_object_store_incomplete env H1 H2).
    repeat split. now exists ObjectStore.
Qed.

(** X10: in the running process, whatever the configuration and whatever
    happens to it, the signings begun (those awaited and those that have
    returned) are as many as the queries that returned rows: a signing is
    begun by such a query and by nothing else, once. *)
Theorem signings_stem_from_rows (env : gmap string string) (ins : list Input) :
  length (List.filter rows_returned (out (run ins (boot env))))
  = length (s3_pending (run ins (boot env)))
    + length (List.filter signing_returned (out (run ins (boot env)))).
Proof.
  destruct (boot_cases env) as [[H1 H2]|(Hd & Hs & g & Ho)].
  - induction ins as [|i ins IH] using rev_ind.
    + rewrite (boot_complete env H1 H2). reflexivity.
    + rewrite run_snoc.
      pose proof (step_provenance env i (run ins (boot env))) as Hstep.
      rewrite IH in Hstep. 
      assert (HI : Inv env (run ins (boot env))) by (apply Inv_run, Inv_boot; assumption).
      specialize (Hstep HI). lia.
  - rewrite (dead_run ins _ Hd), Hs, Ho. reflexivity.
Qed.

Lemma Configured_step (env : gmap string string) (i : Input) (st : Proc) :
  Inv env st -> Configured env st -> Configured env (step i st).
Proof.
  intros HI [Hp Ho]. open_state HI st. simpl in Hp, Ho.
  crack; try discriminate.
  all: try match goal with
       | Hn : nth_error _ _ = Some _ |- _ =>
           pose proof (Forall_nth_error _ _ _ _ Hp Hn) as Hc; simpl in Hc
       end.
  all: constructor; simpl; auto using Forall_remove_nth.
  all: repeat (apply Forall_app; split; auto using Forall_remove_nth).
  all: repeat constructor; auto.
Qed.

Lemma Configured_booted (env : gmap string string) (ins : list Input) :
  incomplete env Database = false ->
  incomplete env ObjectStore = false ->
  Configured env (run ins (boot env)).
Proof.
  intros H1 H2. induction ins as [|i ins IH] using rev_ind.
  - rewrite (boot_complete env H1 H2). constructor; simpl; repeat constructor.
  - rewrite run_snoc. apply Configured_step; [|exact IH].
    apply Inv_run, Inv_boot; assumption.
Qed.

Lemma truthy_object_store (env : gmap string string) (k : string) :
  incomplete env ObjectStore = false ->
  In k (group_vars ObjectStore) ->
  truthy (env !! k) = true.
Proof.
  intros H Hin. pose proof (proj1 (incomplete_false env ObjectStore) H k Hin) as Hm.
  rewrite <- js_not_missing in Hm. unfold js_not in Hm.
  now apply negb_false_iff in Hm.
Qed.

(** X2: the checks at start-up guard every later use of the object-store
    settings.  Whatever the configuration and whatever happens to the
    process, an S3 client is only ever built, and a URL only ever signed,
    with a key id, a secret, a region and a bucket that are set and not
    empty; and every signing is for "banner.jpg" with [expiresIn] 3600. *)
Theorem object_store_settings_never_unset (env : gmap string string) (ins : list Input) :
  (forall c, In (Did (new_S3Client c)) (out (run ins (boot env))) ->
     truthy (accessKeyId c) = true /\ truthy (secretAccessKey c) = true /\
     truthy (region c) = true) /\
  (forall c cmd o r, In (Presigned c cmd o r) (out (run ins (boot env))) ->
     truthy (accessKeyId c) = true /\ truthy (secretAccessKey c) = true /\
     truthy (region c) = true /\ truthy (Bucket cmd) = true /\
     Key cmd = "banner.jpg" /\ expiresIn o = 3600) /\
  (forall c cmd o k, In (c, cmd, o, k) (s3_pending (run ins (boot env))) ->
     truthy (accessKeyId c) = true /\ truthy (secretAccessKey c) = true /\
     truthy (region c) = true /\ truthy (Bucket cmd) = true /\
     Key cmd = "banner.jpg" /\ expiresIn o = 3600).
Proof.
  destruct (boot_cases env) as [[H1 H2]|(Hd & Hs & g & Ho)].
  - destruct (Configured_booted env ins H1 H2) as [Hp Hout].
    rewrite List.Forall_forall in Hp, Hout.
    assert (Ha : truthy (env !! "AWS_ACCESS_KEY_ID") = true)
      by (apply truthy_object_store; simpl; auto).
    assert (Hk : truthy (env !! "AWS_SECRET_ACCESS_KEY") = true)
      by (apply truthy_object_store; simpl; auto).
    assert (Hr : truthy (env !! "AWS_REGION") = true)
      by (apply truthy_object_store; simpl; auto).
    assert (Hb : truthy (env !! "S3_BUCKET_NAME") = true)
      by (apply truthy_object_store; simpl; auto 6).
    split; [|split].
    + intros c Hin. apply Hout in Hin. simpl in Hin. subst c. simpl. auto.
    + intros c cmd o r Hin. apply Hout in Hin. simpl in Hin.
      destruct Hin as (-> & -> & ->). simpl. auto 7.
    + intros c cmd o k Hin. apply Hp in Hin. simpl in Hin.
      destruct Hin as (-> & -> & ->). simpl. auto 7.
  - rewrite (dead_run ins _ Hd), Hs, Ho.
    split; [|split].
    + intros c Hin. in_trace Hin.
    + intros c cmd o r Hin. in_trace Hin.
    + intros c cmd o k [].
Qed.

Lemma object_store_settings_never_unset_witness :
  truthy (Bucket {| Bucket := Some "assets"; Key := "banner.jpg" |}) = true.
Proof.
  destruct (object_store_settings_never_unset full_env
              [Request "/"; QueryDone 0 (inr sample_rows);
               SignDone 0 (inr (sample_url 2))]) as (_ & H & _).
  destruct (H (s3_config full_env) {| Bucket := Some "assets"; Key := "banner.jpg" |}
              {| expiresIn := 3600 |} (inr (sample_url 2))) as (_ & _ & _ & Hb & _).
  - vm_compute. do 9 right. left. reflexivity.
  - exact Hb.
Defined.

Lemma rows_known_grow (o x : list Event) (k : SignResult -> Prog) :
  rows_known o k -> rows_known (o ++ x)%list k.
Proof.
  intros (results & Hk & Hin). exists results. split; [exact Hk|].
  apply in_or_app. now left.
Qed.

Lemma render_known_grow (o x : list Event) (e : Event) :
  render_known o e -> render_known (o ++ x)%list e.
Proof.
  destruct e as [[]| | | | | | |]; simpl; auto.
  intros (Hv & Hq & c & cmd & op & Hs). split; [exact Hv|]. split.
  - apply in_or_app. now left.
  - exists c, cmd, op. apply in_or_app. now left.
Qed.

Lemma Sourced_grow (pc : bool) bz dbp s3p endp sigs gets lis ex (o x : list Event) :
  Forall (fun q => fst q = "SELECT * FROM products") dbp ->
  Forall (fun s => rows_known (o ++ x)%list (snd s)) s3p ->
  Forall (render_known o) o ->
  Forall (render_known (o ++ x)%list) x ->
  Sourced {| pool_closed := pc; busy := bz; db_pending := dbp; s3_pending := s3p;
             end_pending := endp; on_signal := sigs; on_get := gets;
             listening := lis; exited := ex; out := (o ++ x)%list |}.
Proof.
  intros Hd Hp Ho Hx. constructor; simpl; auto.
  apply Forall_app. split; [|exact Hx].
  eapply List.Forall_impl; [|exact Ho]. intros e. apply render_known_grow.
Qed.

Lemma pending_grow (o x : list Event)
    (s3p : list (S3Config * GetObjectCommand * SignOptions * (SignResult -> Prog))) :
  Forall (fun s => rows_known o (snd s)) s3p ->
  Forall (fun s => rows_known (o ++ x)%list (snd s)) s3p.
Proof.
  intros H. eapply List.Forall_impl; [|exact H]. intros s. apply rows_known_grow.
Qed.

Lemma on_signed_url_inj (a b : list Product) :
  on_signed_url a = on_signed_url b -> a = b.
Proof.
  intros H. apply (f_equal (fun k => k (inr EmptyString))) in H.
  now injection H.
Qed.

Lemma Sourced_step (env : gmap string string) (i : Input) (st : Proc) :
  Inv env st -> Sourced st -> Sourced (step i st).
Proof.
  intros HI [Hd Hp Ho]. open_state HI st. simpl in Hd, Hp, Ho.
  crack; try discriminate.
  all: try (constructor; assumption).
  all: try match goal with
       | Hn : nth_error _ _ = Some _ |- _ =>
           pose proof (Forall_nth_error _ _ _ _ Hd Hn) as Hsql; simpl in Hsql; subst
       end.
  all: try match goal with
       | Hn : nth_error _ _ = Some _ |- _ =>
           pose proof (Forall_nth_error _ _ _ _ Hp Hn) as (rs & Hk & Hin);
           simpl in Hk; apply on_signed_url_inj in Hk; subst
       end.
  all: try (constructor; simpl; auto using Forall_remove_nth;
            apply Forall_app; split; auto; repeat constructor; fail).
  all: flat; apply Sourced_grow; auto using pending_grow, Forall_remove_nth.
  all: try (apply Forall_app; split; [now apply pending_grow|]).
  all: repeat constructor; simpl; auto.
  all: try (eexists; split; [reflexivity|]; apply in_or_app; right; now left).
  - apply in_or_app. now left.
  - do 3 eexists. apply in_or_app. right. now left.
Qed.

(** X13: the process makes up neither rows nor URLs.  Whatever the
    configuration and however requests, queries and signings interleave,
    each page rendered is the view "index" on rows that a query of the
    table returned and on a URL that a signing returned. *)
Theorem rendered_data_was_returned (env : gmap string string) (ins : list Input) :
  forall v l,
    In (Did (res_render v l)) (out (run ins (boot env))) ->
    v = "index" /\
    In (Queried "SELECT * FROM products" (inr (products l))) (out (run ins (boot env))) /\
    exists c cmd op,
      In (Presigned c cmd op (inr (bannerUrl l))) (out (run ins (boot env))).
Proof.
  destruct (boot_cases env) as [[H1 H2]|(Hd & Hs & g & Ho)].
  - assert (HS : Sourced (run ins (boot env))).
    { induction ins as [|i ins IH] using rev_ind.
      - rewrite (boot_complete env H1 H2). constructor; simpl; repeat constructor.
      - rewrite run_snoc. apply (Sourced_step env); [|exact IH].
        apply Inv_run, Inv_boot; assumption. }
    destruct HS as [_ _ Hout]. rewrite List.Forall_forall in Hout.
    intros v l Hin. exact (Hout _ Hin).
  - rewrite (dead_run ins _ Hd), Ho. intros v l Hin. in_trace Hin.
Qed.

Lemma rendered_data_was_returned_witness :
  In (Queried "SELECT * FROM products" (inr sample_rows))
    (out (run [Request "/"; Request "/"; QueryDone 1 (inr sample_rows);
               QueryDone 0 (inr []); SignDone 0 (inr (sample_url 9))]
            (boot full_env))).
Proof.
  apply (rendered_data_was_returned full_env
           [Request "/"; Request "/"; QueryDone 1 (inr sample_rows);
            QueryDone 0 (inr []); SignDone 0 (inr (sample_url 9))]
           "index" {| products := sample_rows; bannerUrl := sample_url 9 |}).
  vm_compute. do 11 right. left. reflexivity.
Defined.


End LoopFacts.
